(** * Bounded-concurrency stream stages: [writable] and [transform]

    A shallow embedding of [index.js].  The two constructors close over a
    handful of mutable cells ([pending], the host's [errorEmitted] flag, the
    once-listeners registered on the ['free'] and ['empty'] events) and
    install [_write] / [_transform] and [end] on a host stream.

    JavaScript runs every handler to completion on one thread, and handlers
    re-enter each other synchronously ([emit] calls listeners, the host calls
    [_write] from inside [callback()], a work function may fire its callback
    before returning).  The embedding therefore is a small-step machine whose
    state carries the synchronous call stack explicitly: one step executes
    the frame on top of the stack; when the stack is empty the environment
    (producer, asynchronous work, asynchronous finalize) supplies the next
    event.  Invariants are proved for every state of every run, that is, at
    every instant of every interleaving. *)

From Stdlib Require Import String ZArith List Bool Lia Arith.
Import ListNotations.
Local Open Scope Z_scope.

(** ** JavaScript values *)

(** The fragment of JavaScript values the source inspects: it tests
    truthiness ([if (err)], [if (data)], [if (chunk)], [||]), asks [typeof]
    for ['object'] and ['function'], and reads the [concurrency] property.
    Numbers are the integers and [NaN]; fractions and infinities are not
    represented. *)
#[local] Unset Elimination Schemes.
Inductive jsval : Type :=
| VUndefined
| VNull
| VBool (b : bool)
| VNum (n : Z)
| VNaN
| VStr (s : string)
| VObj (props : list (string * jsval))
| VFun (name : nat).
#[local] Set Elimination Schemes.

(** ToBoolean. *)
Definition truthy (v : jsval) : bool :=
  match v with
  | VUndefined | VNull | VNaN => false
  | VBool b => b
  | VNum n => negb (n =? 0)
  | VStr s => match s with EmptyString => false | _ => true end
  | VObj _ | VFun _ => true
  end.

(** [typeof v === 'object'] ([typeof null] is ['object'] as well). *)
Definition typeof_object (v : jsval) : bool :=
  match v with
  | VNull | VObj _ => true
  | _ => false
  end.

(** [typeof v === 'function']. *)
Definition typeof_function (v : jsval) : bool :=
  match v with
  | VFun _ => true
  | _ => false
  end.

(** [a || b]. *)
Definition js_or (a b : jsval) : jsval := if truthy a then a else b.

Fixpoint lookup_prop (k : string) (props : list (string * jsval)) : option jsval :=
  match props with
  | [] => None
  | (k', v) :: rest => if String.eqb k k' then Some v else lookup_prop k rest
  end.

(** [o.k] for a truthy [o]: own properties of an object literal, [undefined]
    on everything else. *)
Definition get_prop (o : jsval) (k : string) : jsval :=
  match o with
  | VObj props => match lookup_prop k props with Some v => v | None => VUndefined end
  | _ => VUndefined
  end.

(** ** The two constructors *)

Inductive variant : Type := Writable | Transform.

(** The finalize hook a sink ends up with: the default
    [function(callback) { callback(); }] or the user's function. *)
Inductive hook : Type :=
| HookDefault
| HookUser (f : jsval).

(** What a constructor has computed before it creates the host stream. *)
Record ctor : Type := Ctor {
  c_kind : variant;
  c_flush : hook;
  c_options : jsval;
  c_concurrency : jsval
}.

(** [module.exports.writable = function(work, flush, options)], lines 28-35. *)
Definition writable (flush options : jsval) : ctor :=
  let '(flush, options) :=
    if typeof_object flush then (VNull, flush) else (flush, options) in
  let flush := if truthy flush then HookUser flush else HookDefault in
  let options := js_or options (VObj []) in
  let concurrency := js_or (get_prop options "concurrency") (VNum 1) in
  Ctor Writable flush options concurrency.

(** [module.exports.transform = function(work, options)], lines 142-144.
    The transform has no finalize hook; [c_flush] is never consulted. *)
Definition transform (options : jsval) : ctor :=
  let options := js_or options (VObj []) in
  let concurrency := js_or (get_prop options "concurrency") (VNum 1) in
  Ctor Transform HookDefault options concurrency.

(** The stage the machine below runs: the variant, the finalize hook and an
    integer concurrency limit.  A limit that is not an integer-valued number
    (a string, an object, [true]) is outside the model. *)
Record config : Type := Config {
  kind : variant;
  flush : hook;
  concurrency : Z
}.

Definition stage_of (c : ctor) : option config :=
  match c_concurrency c with
  | VNum n => Some (Config (c_kind c) (c_flush c) n)
  | _ => None
  end.

(** ** Machine state *)

Inductive event : Type := Free | Empty.

(** Bodies of the once-listeners the source registers. *)
Inductive action : Type :=
| ARetryWrite (chunk enc : jsval)
    (** [function() { stage._write(chunk, enc, callback); }] *)
| ARetryEnd (chunk enc cb : jsval).
    (** [function() { stage.end(chunk, enc, callback); }] *)

(** Frames of the synchronous call stack: what remains to be executed. *)
Inductive frame : Type :=
| KWrite (chunk enc : jsval)        (** enter [_write] / [_transform] *)
| KWork (id : nat) (chunk enc : jsval)  (** inside [work.call(stage, chunk, enc, cb)] *)
| KDone (id : nat) (err data : jsval)  (** body of the callback given to [work] *)
| KFail (err : jsval)               (** [if (err) fail(err);] *)
| KEmit (ev : event)                (** [stage.emit(ev)] *)
| KCall (ev : event) (ids : list nat)  (** listeners of a running [emit] still to call *)
| KCallback                         (** [callback();] the host's write callback *)
| KCheckEmpty                       (** [if (internal().length === 0) emit('empty')] *)
| KHostWrite (chunk enc : jsval)    (** [stage.write(chunk, enc)] *)
| KOnce (ev : event) (a : action)   (** [stage.once(ev, a)] *)
| KEnd (chunk enc cb : jsval)       (** enter the overriding [stage.end] *)
| KFlush                            (** [flush(function(err) { ... })] *)
| KFlushed (err : jsval)            (** body of the callback given to [flush] *)
| KEnd0.                            (** the host's own [end()] *)

(** What an outside observer sees, oldest first. *)
Inductive obs : Type :=
| OInput (chunk : jsval)          (** the host accepted a written chunk *)
| OEndCall                        (** the producer called [end] *)
| OWork (id : nat) (chunk : jsval)   (** [pending++] and the work function invoked *)
| ODone (id : nat) (err data : jsval)  (** a work callback fired *)
| OPush (data : jsval)            (** [transform.push(data)] *)
| OError (err : jsval)            (** [emit('error', err)] from [fail] *)
| OFlush                          (** the finalize hook was invoked *)
| OEnd0                           (** the host's own [end()] was invoked *)
| OFinish                         (** the host signalled completion *)
| OHostError.                     (** the host's write-after-end error *)

Record state : Type := State {
  pending : Z;                        (** [stage.pending] *)
  errorEmitted : bool;                (** [stage._writableState.errorEmitted] *)
  onFree : list (nat * action);       (** once-listeners of ['free'], oldest first *)
  onEmpty : list (nat * action);      (** once-listeners of ['empty'] *)
  onFinish : list jsval;              (** listeners added by [on('finish', callback)] *)
  nextListener : nat;
  hbuffer : list (jsval * jsval);     (** [internal()]: writes queued by the host *)
  hwriting : bool;                    (** a [_write] whose callback has not fired *)
  hending : bool;                     (** the host's [end()] has been called *)
  hfinished : bool;
  inflight : list nat;                (** work invoked, callback not fired yet *)
  nextWork : nat;
  flushing : nat;                     (** finalize invoked, callback not fired yet *)
  stack : list frame;
  trace : list obs
}.

Definition init : state :=
  State 0 false [] [] [] 0 [] false false false [] 0 0 [] [].

Definition with_pending (p : Z) (s : state) : state :=
  State p (errorEmitted s) (onFree s) (onEmpty s) (onFinish s) (nextListener s)
    (hbuffer s) (hwriting s) (hending s) (hfinished s)
    (inflight s) (nextWork s) (flushing s) (stack s) (trace s).

Definition with_errorEmitted (b : bool) (s : state) : state :=
  State (pending s) b (onFree s) (onEmpty s) (onFinish s) (nextListener s)
    (hbuffer s) (hwriting s) (hending s) (hfinished s)
    (inflight s) (nextWork s) (flushing s) (stack s) (trace s).

Definition with_onFree (l : list (nat * action)) (s : state) : state :=
  State (pending s) (errorEmitted s) l (onEmpty s) (onFinish s) (nextListener s)
    (hbuffer s) (hwriting s) (hending s) (hfinished s)
    (inflight s) (nextWork s) (flushing s) (stack s) (trace s).

Definition with_onEmpty (l : list (nat * action)) (s : state) : state :=
  State (pending s) (errorEmitted s) (onFree s) l (onFinish s) (nextListener s)
    (hbuffer s) (hwriting s) (hending s) (hfinished s)
    (inflight s) (nextWork s) (flushing s) (stack s) (trace s).

Definition with_onFinish (l : list jsval) (s : state) : state :=
  State (pending s) (errorEmitted s) (onFree s) (onEmpty s) l (nextListener s)
    (hbuffer s) (hwriting s) (hending s) (hfinished s)
    (inflight s) (nextWork s) (flushing s) (stack s) (trace s).

Definition with_nextListener (n : nat) (s : state) : state :=
  State (pending s) (errorEmitted s) (onFree s) (onEmpty s) (onFinish s) n
    (hbuffer s) (hwriting s) (hending s) (hfinished s)
    (inflight s) (nextWork s) (flushing s) (stack s) (trace s).

Definition with_hbuffer (b : list (jsval * jsval)) (s : state) : state :=
  State (pending s) (errorEmitted s) (onFree s) (onEmpty s) (onFinish s) (nextListener s)
    b (hwriting s) (hending s) (hfinished s)
    (inflight s) (nextWork s) (flushing s) (stack s) (trace s).

Definition with_hwriting (b : bool) (s : state) : state :=
  State (pending s) (errorEmitted s) (onFree s) (onEmpty s) (onFinish s) (nextListener s)
    (hbuffer s) b (hending s) (hfinished s)
    (inflight s) (nextWork s) (flushing s) (stack s) (trace s).

Definition with_hending (b : bool) (s : state) : state :=
  State (pending s) (errorEmitted s) (onFree s) (onEmpty s) (onFinish s) (nextListener s)
    (hbuffer s) (hwriting s) b (hfinished s)
    (inflight s) (nextWork s) (flushing s) (stack s) (trace s).

Definition with_hfinished (b : bool) (s : state) : state :=
  State (pending s) (errorEmitted s) (onFree s) (onEmpty s) (onFinish s) (nextListener s)
    (hbuffer s) (hwriting s) (hending s) b
    (inflight s) (nextWork s) (flushing s) (stack s) (trace s).

Definition with_inflight (l : list nat) (s : state) : state :=
  State (pending s) (errorEmitted s) (onFree s) (onEmpty s) (onFinish s) (nextListener s)
    (hbuffer s) (hwriting s) (hending s) (hfinished s)
    l (nextWork s) (flushing s) (stack s) (trace s).

Definition with_nextWork (n : nat) (s : state) : state :=
  State (pending s) (errorEmitted s) (onFree s) (onEmpty s) (onFinish s) (nextListener s)
    (hbuffer s) (hwriting s) (hending s) (hfinished s)
    (inflight s) n (flushing s) (stack s) (trace s).

Definition with_flushing (n : nat) (s : state) : state :=
  State (pending s) (errorEmitted s) (onFree s) (onEmpty s) (onFinish s) (nextListener s)
    (hbuffer s) (hwriting s) (hending s) (hfinished s)
    (inflight s) (nextWork s) n (stack s) (trace s).

Definition with_stack (k : list frame) (s : state) : state :=
  State (pending s) (errorEmitted s) (onFree s) (onEmpty s) (onFinish s) (nextListener s)
    (hbuffer s) (hwriting s) (hending s) (hfinished s)
    (inflight s) (nextWork s) (flushing s) k (trace s).

Definition log (o : obs) (s : state) : state :=
  State (pending s) (errorEmitted s) (onFree s) (onEmpty s) (onFinish s) (nextListener s)
    (hbuffer s) (hwriting s) (hending s) (hfinished s)
    (inflight s) (nextWork s) (flushing s) (stack s) (trace s ++ [o]).

(** ** Event emitter

    The stage inherits [once] and [emit] from Node's [EventEmitter], which is
    not part of the repository. *)

Definition listeners (ev : event) (s : state) : list (nat * action) :=
  match ev with Free => onFree s | Empty => onEmpty s end.

Definition with_listeners (ev : event) (l : list (nat * action)) (s : state) : state :=
  match ev with Free => with_onFree l s | Empty => with_onEmpty l s end.

(** Modelled from the spec: [stage.once(ev, a)] of the missing
    [EventEmitter]; the listener is appended and lives until it fires. *)
Definition once (ev : event) (a : action) (s : state) : state :=
  with_nextListener (S (nextListener s))
    (with_listeners ev (listeners ev s ++ [(nextListener s, a)]) s).

(** Modelled from the spec: a once-listener of the missing [EventEmitter]
    fires at most once; firing removes it from the list, and a running
    [emit] that meets an identifier no longer listed skips it. *)
Fixpoint take_listener (i : nat) (l : list (nat * action))
  : option (action * list (nat * action)) :=
  match l with
  | [] => None
  | (j, a) :: rest =>
      if Nat.eqb i j then Some (a, rest)
      else match take_listener i rest with
           | Some (b, rest') => Some (b, (j, a) :: rest')
           | None => None
           end
  end.

Definition frame_of (a : action) : frame :=
  match a with
  | ARetryWrite chunk enc => KWrite chunk enc
  | ARetryEnd chunk enc cb => KEnd chunk enc cb
  end.

(** Modelled from the spec: [stage.emit(ev)] of the missing [EventEmitter]
    copies the listener array, then calls the copies in registration
    order. *)
Definition emit (ev : event) (k : list frame) (s : state) : state :=
  with_stack (KCall ev (map fst (listeners ev s)) :: k) s.

Definition call_next (ev : event) (ids : list nat) (k : list frame) (s : state) : state :=
  match ids with
  | [] => with_stack k s
  | i :: ids' =>
      match take_listener i (listeners ev s) with
      | Some (a, rest) =>
          with_stack (frame_of a :: KCall ev ids' :: k) (with_listeners ev rest s)
      | None => with_stack (KCall ev ids' :: k) s
      end
  end.

(** ** Host stream

    The host streaming framework (Node's [stream.Writable] and
    [stream.Transform]) is an external collaborator and not part of the
    repository.  Its sequential contract is taken as follows.  A written
    chunk is handed to [_write] at once when no write is outstanding and
    queued in the internal buffer otherwise.  The write callback hands the
    oldest queued chunk to [_write] or, with nothing queued, leaves the
    stream idle.  The host's own [end()] marks the stream as ending, and
    completion is signalled as soon as an ending stream is idle with an
    empty buffer.  A write to an ending stream is answered with the host's
    own error.  The readable side of a transform delivers what is pushed. *)

(** Modelled from the spec: completion of the missing host stream, signalled
    once, when the stream is ending and idle and its buffer is empty.
    Neither the source nor the specification fixes whether the host signals
    it inside the call that makes the stream idle or on a later tick of the
    same turn.  It is recorded here at the earliest point, and the
    properties below use only what holds either way: completion is signalled
    at most once, only after the host's [end()], and, when no error is
    recorded in that turn, in the turn in which the ending stream has become
    idle; where it falls among the other events of that turn is not relied
    on. *)
Definition finish_maybe (s : state) : state :=
  if hending s && negb (hwriting s) && negb (hfinished s)
     && match hbuffer s with [] => true | _ => false end
  then log OFinish (with_hfinished true s)
  else s.

(** Modelled from the spec: [stage.write(chunk, enc)] of the missing host
    stream. *)
Definition host_write (chunk enc : jsval) (k : list frame) (s : state) : state :=
  if hending s then with_stack k (log OHostError s)
  else if hwriting s then
    with_stack k (log (OInput chunk) (with_hbuffer (hbuffer s ++ [(chunk, enc)]) s))
  else
    with_stack (KWrite chunk enc :: k) (log (OInput chunk) (with_hwriting true s)).

(** Modelled from the spec: [callback()], the write callback the missing host
    stream gives to [_write] / [_transform]. *)
Definition host_onwrite (k : list frame) (s : state) : state :=
  match hbuffer s with
  | (chunk, enc) :: rest => with_stack (KWrite chunk enc :: k) (with_hbuffer rest s)
  | [] => with_stack k (finish_maybe (with_hwriting false s))
  end.

(** Modelled from the spec: the own [end()] of the missing host stream, saved
    by the source as [end]. *)
Definition host_end (k : list frame) (s : state) : state :=
  with_stack k (finish_maybe (with_hending true (log OEnd0 s))).

(** Modelled from the spec: [transform.push(data)] of the missing host
    stream. *)
Definition host_push (data : jsval) (s : state) : state := log (OPush data) s.

(** ** The stage *)

(** [function internal()], lines 38-42: the host's queue of buffered
    writes. *)
Definition internal (s : state) : list (jsval * jsval) := hbuffer s.

(** [function fail(err)], lines 46-51 and 149-154.  The consumer is taken to
    listen for ['error']. *)
Definition fail (err : jsval) (s : state) : state :=
  if negb (errorEmitted s)
  then log (OError err) (with_errorEmitted true s)
  else s.

(** [if (err) fail(err);] *)
Definition fail_if (err : jsval) (s : state) : state :=
  if truthy err then fail err s else s.

Section Stage.

Variable cfg : config.

(** [pending++] and the call of [work]; the invocation is observed here and
    numbered in dispatch order.  [rest] is what the caller does when [work]
    has returned. *)
Definition dispatch (chunk enc : jsval) (rest : list frame) (s : state) : state :=
  with_stack (KWork (nextWork s) chunk enc :: rest)
    (with_nextWork (S (nextWork s))
       (log (OWork (nextWork s) chunk) (with_pending (pending s + 1) s))).

(** [writable._write], lines 53-69: the limit check, the dispatch, then
    [callback()] and the ['empty'] check. *)
Definition _write (chunk enc : jsval) (k : list frame) (s : state) : state :=
  if pending s >=? concurrency cfg then
    with_stack k (once Free (ARetryWrite chunk enc) s)
  else
    dispatch chunk enc (KCallback :: KCheckEmpty :: k) s.

(** [transform._transform], lines 156-172: the limit check, the dispatch,
    then [callback()]. *)
Definition _transform (chunk enc : jsval) (k : list frame) (s : state) : state :=
  if pending s >=? concurrency cfg then
    with_stack k (once Free (ARetryWrite chunk enc) s)
  else
    dispatch chunk enc (KCallback :: k) s.

Definition stage_write (chunk enc : jsval) (k : list frame) (s : state) : state :=
  match kind cfg with
  | Writable => _write chunk enc k s
  | Transform => _transform chunk enc k s
  end.

(** The work function fires its callback before it returns. *)
Definition work_sync (id : nat) (err data : jsval) (k : list frame) (s : state) : state :=
  with_stack (KDone id err data :: k) s.

(** The work function returns; its callback fires later. *)
Definition work_async (id : nat) (k : list frame) (s : state) : state :=
  with_stack k (with_inflight (inflight s ++ [id]) s).

(** The callback the sink gives to [work], lines 61-65:
    [pending--; emit('free'); if (err) fail(err);]. *)
Definition writable_done (id : nat) (err data : jsval) (k : list frame) (s : state) : state :=
  with_stack (KEmit Free :: KFail err :: k)
    (log (ODone id err data) (with_pending (pending s - 1) s)).

(** The callback the transform gives to [work], lines 164-169:
    [pending--; if (err) fail(err); else if (data) push(data); emit('free');]. *)
Definition transform_done (id : nat) (err data : jsval) (k : list frame) (s : state) : state :=
  let s := log (ODone id err data) (with_pending (pending s - 1) s) in
  with_stack (KEmit Free :: k)
    (if truthy err then fail err s
     else if truthy data then host_push data s
     else s).

Definition stage_done (id : nat) (err data : jsval) (k : list frame) (s : state) : state :=
  match kind cfg with
  | Writable => writable_done id err data k s
  | Transform => transform_done id err data k s
  end.

(** [if (internal().length === 0) writable.emit('empty');], line 68. *)
Definition check_empty (k : list frame) (s : state) : state :=
  match internal s with
  | [] => with_stack (KEmit Empty :: k) s
  | _ => with_stack k s
  end.

(** Lines 86-94 and 183-191: a function in the place of [chunk] or [enc] is
    the callback. *)
Definition end_args (chunk enc cb : jsval) : jsval * jsval * jsval :=
  let '(chunk, cb) := if typeof_function chunk then (VNull, chunk) else (chunk, cb) in
  let '(enc, cb) := if typeof_function enc then (VNull, enc) else (enc, cb) in
  (chunk, enc, cb).

(** [if (callback) stage.on('finish', callback);]  The listeners are kept;
    the host calls them when it signals completion. *)
Definition on_finish (cb : jsval) (s : state) : state :=
  if truthy cb then with_onFinish (onFinish s ++ [cb]) s else s.

(** [writable.end], lines 73-110, up to the call of [flush]. *)
Definition writable_end (chunk enc cb : jsval) (k : list frame) (s : state) : state :=
  match internal s with
  | _ :: _ => with_stack k (once Empty (ARetryEnd chunk enc cb) s)
  | [] =>
      if negb (pending s =? 0) then
        with_stack k (once Free (ARetryEnd chunk enc cb) s)
      else
        let '(chunk, enc, cb) := end_args chunk enc cb in
        if truthy chunk then
          with_stack
            (KHostWrite chunk enc :: KOnce Free (ARetryEnd cb VUndefined VUndefined) :: k) s
        else if errorEmitted s then with_stack k s
        else with_stack (KFlush :: k) (on_finish cb s)
  end.

(** [transform.end], lines 176-204. *)
Definition transform_end (chunk enc cb : jsval) (k : list frame) (s : state) : state :=
  if negb (pending s =? 0) then
    with_stack k (once Free (ARetryEnd chunk enc cb) s)
  else
    let '(chunk, enc, cb) := end_args chunk enc cb in
    if truthy chunk then
      with_stack
        (KHostWrite chunk enc :: KOnce Free (ARetryEnd cb VUndefined VUndefined) :: k) s
    else
      let s := on_finish cb s in
      if errorEmitted s then with_stack k s
      else with_stack (KEnd0 :: k) s.

Definition stage_end (chunk enc cb : jsval) (k : list frame) (s : state) : state :=
  match kind cfg with
  | Writable => writable_end chunk enc cb k s
  | Transform => transform_end chunk enc cb k s
  end.

(** The finalize hook is invoked and fires its callback before it returns. *)
Definition flush_sync (err : jsval) (k : list frame) (s : state) : state :=
  with_stack (KFlushed err :: k) (log OFlush s).

(** The finalize hook is invoked and returns; its callback fires later. *)
Definition flush_async (k : list frame) (s : state) : state :=
  with_stack k (with_flushing (S (flushing s)) (log OFlush s)).

(** The callback given to [flush], lines 106-109:
    [if (err) return fail(err); end();]. *)
Definition flush_done (err : jsval) (k : list frame) (s : state) : state :=
  if truthy err then with_stack k (fail err s)
  else with_stack (KEnd0 :: k) s.

(** ** Steps *)

(** What the environment contributes to a step.  With a frame on the stack
    the machine runs by itself ([Tau]) except where user code decides: a work
    function or a finalize hook completes before returning ([WorkSync],
    [FlushSync]) or later ([WorkAsync], [FlushAsync]).  With an empty stack
    the next event comes from outside: the producer writes or ends, or an
    outstanding callback fires.  User code that runs inside a handler (the
    work function, the finalize hook, the consumer's listeners) is taken to
    act on the stage only through the callback it was given, and to fire
    that callback once. *)
Inductive input : Type :=
| Tau
| WorkSync (err data : jsval)
| WorkAsync
| FlushSync (err : jsval)
| FlushAsync
| UserWrite (chunk enc : jsval)
| UserEnd (chunk enc cb : jsval)
| Complete (id : nat) (err data : jsval)
| FlushDone (err : jsval).

(** Removes the first occurrence of a work identifier: a callback fires only
    for work that is in flight, and at most once. *)
Fixpoint take_id (id : nat) (l : list nat) : option (list nat) :=
  match l with
  | [] => None
  | x :: rest =>
      if Nat.eqb id x then Some rest
      else match take_id id rest with
           | Some rest' => Some (x :: rest')
           | None => None
           end
  end.

Definition arrive (i : input) (s : state) : option state :=
  match i with
  | UserWrite chunk enc => Some (with_stack [KHostWrite chunk enc] s)
  | UserEnd chunk enc cb => Some (with_stack [KEnd chunk enc cb] (log OEndCall s))
  | Complete id err data =>
      match take_id id (inflight s) with
      | Some rest => Some (with_stack [KDone id err data] (with_inflight rest s))
      | None => None
      end
  | FlushDone err =>
      match flushing s with
      | S n => Some (with_stack [KFlushed err] (with_flushing n s))
      | O => None
      end
  | _ => None
  end.

(** The default hook [function(callback) { callback(); }] has one behaviour:
    it completes at once without an error. *)
Definition resume (f : frame) (k : list frame) (i : input) (s : state) : option state :=
  match f, i with
  | KWork id _ _, WorkSync err data => Some (work_sync id err data k s)
  | KWork id _ _, WorkAsync => Some (work_async id k s)
  | KWork _ _ _, _ => None
  | KFlush, FlushSync err =>
      match flush cfg, err with
      | HookDefault, VUndefined => Some (flush_sync err k s)
      | HookDefault, _ => None
      | HookUser _, _ => Some (flush_sync err k s)
      end
  | KFlush, FlushAsync =>
      match flush cfg with
      | HookDefault => None
      | HookUser _ => Some (flush_async k s)
      end
  | KFlush, _ => None
  | KWrite chunk enc, Tau => Some (stage_write chunk enc k s)
  | KDone id err data, Tau => Some (stage_done id err data k s)
  | KFail err, Tau => Some (with_stack k (fail_if err s))
  | KEmit ev, Tau => Some (emit ev k s)
  | KCall ev ids, Tau => Some (call_next ev ids k s)
  | KCallback, Tau => Some (host_onwrite k s)
  | KCheckEmpty, Tau => Some (check_empty k s)
  | KHostWrite chunk enc, Tau => Some (host_write chunk enc k s)
  | KOnce ev a, Tau => Some (with_stack k (once ev a s))
  | KEnd chunk enc cb, Tau => Some (stage_end chunk enc cb k s)
  | KFlushed err, Tau => Some (flush_done err k s)
  | KEnd0, Tau => Some (host_end k s)
  | _, _ => None
  end.

Definition step (i : input) (s : state) : option state :=
  match stack s with
  | [] => arrive i s
  | f :: k => resume f k i s
  end.

(** A run: the inputs are consumed one step each; [None] when an input does
    not fit the state. *)
Fixpoint run (ins : list input) (s : state) : option state :=
  match ins with
  | [] => Some s
  | i :: rest =>
      match step i s with
      | Some s' => run rest s'
      | None => None
      end
  end.

End Stage.


(** ** Counting and projections *)

Fixpoint count {A : Type} (p : A -> bool) (l : list A) : nat :=
  match l with
  | [] => O
  | x :: rest => ((if p x then 1 else 0) + count p rest)%nat
  end.

Fixpoint collect {A B : Type} (f : A -> option B) (l : list A) : list B :=
  match l with
  | [] => []
  | x :: rest =>
      match f x with
      | Some y => y :: collect f rest
      | None => collect f rest
      end
  end.

Definition is_work (o : obs) : bool := match o with OWork _ _ => true | _ => false end.
Definition is_done (o : obs) : bool := match o with ODone _ _ _ => true | _ => false end.
Definition is_error (o : obs) : bool := match o with OError _ => true | _ => false end.
Definition is_flush (o : obs) : bool := match o with OFlush => true | _ => false end.
Definition is_endcall (o : obs) : bool := match o with OEndCall => true | _ => false end.
Definition is_end0 (o : obs) : bool := match o with OEnd0 => true | _ => false end.
Definition is_finish (o : obs) : bool := match o with OFinish => true | _ => false end.

(** Chunks the host accepted, in input order. *)
Definition inputs : list obs -> list jsval :=
  collect (fun o => match o with OInput c => Some c | _ => None end).

(** Chunks handed to the work function, in dispatch order. *)
Definition dispatched : list obs -> list jsval :=
  collect (fun o => match o with OWork _ c => Some c | _ => None end).

(** Error notifications delivered, in order. *)
Definition errors : list obs -> list jsval :=
  collect (fun o => match o with OError e => Some e | _ => None end).

(** Values emitted downstream, in order. *)
Definition pushes : list obs -> list jsval :=
  collect (fun o => match o with OPush d => Some d | _ => None end).

(** What the work callbacks asked to emit, in completion order: the data of
    every completion whose error argument is falsy and whose data argument
    is truthy. *)
Definition outputs : list obs -> list jsval :=
  collect (fun o =>
    match o with
    | ODone _ err data => if truthy err then None else if truthy data then Some data else None
    | _ => None
    end).

(** Chunks whose work has been dispatched and whose callback has not yet
    decremented [pending]: the work function is running ([KWork], on the
    stack, or [inflight], asynchronously) or its callback is about to run
    ([KDone]). *)
Definition live (f : frame) : bool :=
  match f with
  | KWork _ _ _ | KDone _ _ _ => true
  | _ => false
  end.

Definition outstanding (s : state) : nat :=
  (length (inflight s) + count live (stack s))%nat.

(** ** Invariants *)

(** The counter is the number of outstanding chunks and the balance of
    dispatches and completions. *)
Definition balance_inv (s : state) : Prop :=
  pending s = Z.of_nat (outstanding s)
  /\ Z.of_nat (count is_work (trace s)) = pending s + Z.of_nat (count is_done (trace s)).

(** The counter stays within the limit. *)
Definition pending_inv (cfg : config) (s : state) : Prop :=
  balance_inv s /\ pending s <= concurrency cfg.

Definition frame_id (id : nat) (f : frame) : bool :=
  match f with
  | KWork j _ _ | KDone j _ _ => Nat.eqb id j
  | _ => false
  end.

Definition work_id (id : nat) (o : obs) : bool :=
  match o with OWork j _ => Nat.eqb id j | _ => false end.

Definition done_id (id : nat) (o : obs) : bool :=
  match o with ODone j _ _ => Nat.eqb id j | _ => false end.

(** Every number below [nextWork] names one dispatch, and a dispatched work
    is in one place: running, about to be completed, or completed. *)
Definition ids_inv (s : state) : Prop :=
  forall id,
    (count (Nat.eqb id) (inflight s) + count (frame_id id) (stack s)
     + count (done_id id) (trace s))%nat = count (work_id id) (trace s)
    /\ count (work_id id) (trace s) = (if Nat.ltb id (nextWork s) then 1 else 0)%nat.

(** One error notification once the flag is set, none before. *)
Definition error_inv (s : state) : Prop :=
  length (errors (trace s)) = (if errorEmitted s then 1 else 0)%nat.

Definition is_kflush (f : frame) : bool := match f with KFlush => true | _ => false end.

(** A call of the finalize hook is only ever the next thing to execute, and
    then the buffer is empty, nothing is in flight and no error is recorded. *)
Definition flush_inv (s : state) : Prop :=
  match stack s with
  | KFlush :: k =>
      hbuffer s = [] /\ pending s = 0 /\ errorEmitted s = false /\ count is_kflush k = O
  | k => count is_kflush k = O
  end.

Definition end_action (a : action) : bool :=
  match a with ARetryEnd _ _ _ => true | ARetryWrite _ _ => false end.

Definition end_listener (l : nat * action) : bool := end_action (snd l).

(** Frames that carry a call of the overriding [end] not yet turned into a
    call of the finalize hook. *)
Definition end_frame (f : frame) : bool :=
  match f with
  | KEnd _ _ _ | KFlush => true
  | KOnce _ a => end_action a
  | _ => false
  end.

(** Every call of the finalize hook, and every deferred [end], goes back to
    a call of [end] by the producer of its own. *)
Definition token_inv (s : state) : Prop :=
  (count is_flush (trace s) + count end_listener (onFree s)
   + count end_listener (onEmpty s) + count end_frame (stack s)
   <= count is_endcall (trace s))%nat.

Definition flushed_frame (f : frame) : bool :=
  match f with KFlushed _ | KEnd0 => true | _ => false end.

(** In the sink the host's [end()] is reached only through the callback of
    the finalize hook. *)
Definition finalize_inv (cfg : config) (s : state) : Prop :=
  kind cfg = Writable ->
  (count is_end0 (trace s) + flushing s + count flushed_frame (stack s)
   <= count is_flush (trace s))%nat.

(** The host signals completion once, and only after its [end()]. *)
Definition host_inv (s : state) : Prop :=
  (hfinished s = true -> hending s = true)
  /\ (hending s = true -> (1 <= count is_end0 (trace s))%nat)
  /\ count is_finish (trace s) = (if hfinished s then 1 else 0)%nat.

(** Everything the callbacks asked to emit has been emitted, in the same
    order; the sink emits nothing. *)
Definition push_inv (cfg : config) (s : state) : Prop :=
  pushes (trace s) =
  match kind cfg with Transform => outputs (trace s) | Writable => [] end.

Definition is_kend0 (f : frame) : bool := match f with KEnd0 => true | _ => false end.

Definition flush_frame (f : frame) : bool :=
  match f with KFlush | KFlushed _ => true | _ => false end.

(** In the transform a call of the host's [end()] is only ever the next
    thing to execute, and then nothing is in flight; the transform has no
    finalize hook. *)
Definition end0_inv (cfg : config) (s : state) : Prop :=
  kind cfg = Transform ->
  flushing s = O /\ count flush_frame (stack s) = O
  /\ match stack s with
     | KEnd0 :: k => pending s = 0 /\ count is_kend0 k = O
     | k => count is_kend0 k = O
     end.

(** The one write the host has handed over and that has not been confirmed
    by [callback()] sits in exactly one place. *)
Definition write_frame (f : frame) : bool :=
  match f with
  | KWrite _ _ | KCallback => true
  | KOnce _ a => negb (end_action a)
  | _ => false
  end.

Definition write_listener (l : nat * action) : bool := negb (end_action (snd l)).

Definition frame_chunk (f : frame) : option jsval :=
  match f with
  | KWrite chunk _ | KOnce _ (ARetryWrite chunk _) => Some chunk
  | _ => None
  end.

Definition listener_chunk (l : nat * action) : option jsval :=
  match snd l with ARetryWrite chunk _ => Some chunk | _ => None end.

(** Chunks handed to [_write] / [_transform] and not yet dispatched. *)
Definition waiting (s : state) : list jsval :=
  collect frame_chunk (stack s) ++ collect listener_chunk (onFree s)
  ++ collect listener_chunk (onEmpty s).

Definition order_inv (s : state) : Prop :=
  inputs (trace s) = dispatched (trace s) ++ waiting s ++ map fst (hbuffer s)
  /\ (count write_frame (stack s) + count write_listener (onFree s)
      + count write_listener (onEmpty s))%nat = (if hwriting s then 1 else 0)%nat
  /\ (hwriting s = false -> hbuffer s = []).

(** ** The specification's wording *)

(** The emitted sequence as the specification describes it: the non-null
    outputs of the error-free completions that occur before any error. *)
Fixpoint spec_emitted (t : list obs) : list jsval :=
  match t with
  | [] => []
  | ODone _ err data :: rest =>
      if truthy err then []
      else match data with
           | VNull | VUndefined => spec_emitted rest
           | _ => data :: spec_emitted rest
           end
  | _ :: rest => spec_emitted rest
  end.

(** An input that resolves the finalize hook the way an immediately
    succeeding hook does. *)
Definition immediate (i : input) : bool :=
  match i with
  | FlushSync VUndefined => true
  | FlushSync _ | FlushAsync => false
  | _ => true
  end.

(** ** Sample runs *)

Definition sink1 : config := Config Writable HookDefault 1.
Definition xform1 : config := Config Transform HookDefault 1.
Definition sink2 : config := Config Writable HookDefault 2.

Definition chunk_a : jsval := VStr "a".
Definition chunk_b : jsval := VStr "b".
Definition boom : jsval := VStr "boom".
Definition chunk_c : jsval := VStr "c".
Definition out_x : jsval := VStr "x".

(** The state a run from [init] ends in ([init] itself when an input does
    not fit). *)
Definition final (cfg : config) (ins : list input) : state :=
  match run cfg ins init with
  | Some s => s
  | None => init
  end.

(** A sink of limit 2 is given three chunks and ended; the second chunk
    completes first, then the first, then the third. *)
Definition sink_run : list input :=
  [UserWrite chunk_a VUndefined; Tau; Tau; WorkAsync; Tau; Tau; Tau; Tau;
   UserWrite chunk_b VUndefined; Tau; Tau; WorkAsync; Tau; Tau; Tau; Tau;
   UserWrite chunk_c VUndefined; Tau; Tau;
   UserEnd VUndefined VUndefined VUndefined; Tau;
   Complete 1 VUndefined VUndefined; Tau; Tau; Tau; Tau; WorkAsync;
   Tau; Tau; Tau; Tau; Tau; Tau; Tau; Tau;
   Complete 0 VUndefined VUndefined; Tau; Tau; Tau; Tau; Tau; Tau;
   Complete 2 VUndefined VUndefined; Tau; Tau; Tau; Tau;
   FlushSync VUndefined; Tau; Tau; Tau; Tau].

(** A sink of limit 1 is given one chunk and ended; the work then reports a
    failure. *)
Definition sink_last_fails : list input :=
  [UserWrite chunk_a VUndefined; Tau; Tau; WorkAsync; Tau; Tau; Tau; Tau;
   UserEnd VUndefined VUndefined VUndefined; Tau;
   Complete 0 boom VUndefined; Tau; Tau; Tau; Tau;
   FlushSync VUndefined; Tau; Tau; Tau; Tau].

(** A transform of limit 1 is given two chunks and ended; both complete with
    an output. *)
Definition xform_run : list input :=
  [UserWrite chunk_a VUndefined; Tau; Tau; WorkAsync; Tau;
   UserWrite chunk_b VUndefined; Tau; Tau;
   UserEnd VUndefined VUndefined VUndefined; Tau;
   Complete 0 VUndefined out_x; Tau; Tau; Tau; Tau; WorkAsync; Tau; Tau; Tau; Tau;
   Complete 1 VUndefined chunk_b; Tau; Tau; Tau; Tau; Tau; Tau].

(** A transform whose only work completes without an error and yields the
    number 0. *)
Definition xform_zero : list input :=
  [UserWrite chunk_a VUndefined; Tau; Tau; WorkAsync; Tau;
   Complete 0 VUndefined (VNum 0); Tau; Tau; Tau].

(** A transform whose first work fails and whose second work then completes
    with an output. *)
Definition xform_after_error : list input :=
  [UserWrite chunk_a VUndefined; Tau; Tau; WorkAsync; Tau;
   UserWrite chunk_b VUndefined; Tau; Tau;
   Complete 0 boom VUndefined; Tau; Tau; Tau; Tau; WorkAsync; Tau; Tau;
   Complete 1 VUndefined out_x; Tau; Tau; Tau].

(** A chunk is written after the only work so far has failed. *)
Definition sink_write_after_error : list input :=
  [UserWrite chunk_a VUndefined; Tau; Tau; WorkAsync; Tau; Tau; Tau; Tau;
   Complete 0 boom VUndefined; Tau; Tau; Tau; Tau;
   UserWrite chunk_b VUndefined; Tau; Tau; WorkAsync; Tau; Tau; Tau; Tau].

Definition xform_write_after_error : list input :=
  [UserWrite chunk_a VUndefined; Tau; Tau; WorkAsync; Tau;
   Complete 0 boom VUndefined; Tau; Tau; Tau;
   UserWrite chunk_b VUndefined; Tau; Tau; WorkAsync; Tau].


(** The states these runs end in. *)
Definition sink_run_final : state := Eval vm_compute in final sink2 sink_run.
Definition sink_last_fails_final : state := Eval vm_compute in final sink1 sink_last_fails.
Definition xform_run_final : state := Eval vm_compute in final xform1 xform_run.
Definition xform_zero_final : state := Eval vm_compute in final xform1 xform_zero.
Definition xform_after_error_final : state :=
  Eval vm_compute in final xform1 xform_after_error.
Definition sink_write_after_error_final : state :=
  Eval vm_compute in final sink1 sink_write_after_error.
Definition xform_write_after_error_final : state :=
  Eval vm_compute in final xform1 xform_write_after_error.

Fixpoint no_work (t : list obs) : bool :=
  match t with
  | [] => true
  | OWork _ _ :: _ => false
  | _ :: rest => no_work rest
  end.

(** The specification's words: once an error has been recorded, no further
    chunk is dispatched to the work function. *)
Fixpoint spec_no_admission_after_error (t : list obs) : bool :=
  match t with
  | [] => true
  | OError _ :: rest => no_work rest
  | _ :: rest => spec_no_admission_after_error rest
  end.

(** The specification's words: at most one terminal notification, a
    completion or an error, never both. *)
Definition spec_single_outcome (t : list obs) : bool :=
  (count is_finish t + count is_error t <=? 1)%nat.

(** ** Further invariants *)

Definition frame_id_of (f : frame) : option nat :=
  match f with
  | KWork j _ _ | KDone j _ _ => Some j
  | _ => None
  end.

(** Numbers of the works invoked, in dispatch order, and of the callbacks
    fired, in completion order. *)
Definition work_ids : list obs -> list nat :=
  collect (fun o => match o with OWork j _ => Some j | _ => None end).

Definition done_ids : list obs -> list nat :=
  collect (fun o => match o with ODone j _ _ => Some j | _ => None end).

(** Nothing has been dispatched. *)
Definition starved_inv (s : state) : Prop :=
  pending s = 0 /\ count is_work (trace s) = O
  /\ count live (stack s) = O /\ inflight s = [].

(** With one slot the works are completed in the order of their dispatch. *)
Definition serial_inv (cfg : config) (s : state) : Prop :=
  pending_inv cfg s
  /\ work_ids (trace s)
     = done_ids (trace s) ++ collect frame_id_of (stack s) ++ inflight s.

Definition shutdown_frame (f : frame) : bool :=
  match f with KFlush | KFlushed _ | KEnd0 => true | _ => false end.

(** An error is recorded and no call of the finalize hook or of the host's
    [end()] is under way. *)
Definition blocked (s : state) : Prop :=
  errorEmitted s = true /\ flushing s = O /\ count shutdown_frame (stack s) = O.

(** In the transform no call of the host's [end()] is under way once an
    error is recorded. *)
Definition error_end0_inv (cfg : config) (s : state) : Prop :=
  end0_inv cfg s
  /\ (kind cfg = Transform -> errorEmitted s = true -> count is_kend0 (stack s) = O).

(** Identifiers of the once-listeners that retry a write. *)
Definition write_ids (l : list (nat * action)) : list nat :=
  collect (fun x => if write_listener x then Some (fst x) else None) l.

(** A frame that will call the listeners [ws] of ['free']: an [emit('free')]
    about to start, or a running one that still has them on its list. *)
Definition covers (ws : list nat) (f : frame) : bool :=
  match f with
  | KEmit Free => true
  | KCall Free ids => forallb (fun j => existsb (Nat.eqb j) ids) ws
  | _ => false
  end.

Definition covered (ws : list nat) (k : list frame) : bool := existsb (covers ws) k.

Definition once_write (f : frame) : bool :=
  match f with KOnce _ (ARetryWrite _ _) => true | _ => false end.

(** A write that waits on ['free'] waits with the pool full, or an
    [emit('free')] that will retry it is under way. *)
Definition cover_inv (cfg : config) (s : state) : Prop :=
  Forall (fun x => (fst x < nextListener s)%nat) (onFree s)
  /\ NoDup (map fst (onFree s))
  /\ count once_write (stack s) = O
  /\ count write_listener (onEmpty s) = O
  /\ (write_ids (onFree s) = [] \/ concurrency cfg <= pending s
      \/ covered (write_ids (onFree s)) (stack s) = true).

(** ** Further sample runs *)

Definition xform_neg : config := Config Transform HookDefault (-1).
Definition sink_hook : config := Config Writable (HookUser (VFun 0)) 1.

(** The state a run from [s0] ends in ([s0] itself when an input does not
    fit). *)
Definition final_from (cfg : config) (ins : list input) (s0 : state) : state :=
  match run cfg ins s0 with
  | Some s => s
  | None => s0
  end.

(** Two chunks are written to a transform whose limit is -1. *)
Definition starved_run : list input :=
  [UserWrite chunk_a VUndefined; Tau; Tau; UserWrite chunk_b VUndefined; Tau].

(** A transform of limit 1 is given a second chunk while the work on the
    first is in flight. *)
Definition waiting_run : list input :=
  [UserWrite chunk_a VUndefined; Tau; Tau; WorkAsync; Tau;
   UserWrite chunk_b VUndefined; Tau; Tau].

(** A sink is ended at once, and its finalize hook reports a failure before
    it returns. *)
Definition flush_fails : list input :=
  [UserEnd VUndefined VUndefined VUndefined; Tau; FlushSync boom].

(** The stage is ended after a failure, and the work still in flight then
    completes. *)
Definition sink_end_after_error : list input :=
  [UserEnd VUndefined VUndefined VUndefined; Tau;
   Complete 1 VUndefined VUndefined; Tau; Tau; Tau; Tau; Tau; Tau].

Definition xform_end_after_error : list input :=
  [UserEnd VUndefined VUndefined VUndefined; Tau;
   Complete 1 VUndefined out_x; Tau; Tau; Tau; Tau; Tau].

Definition starved_final : state := Eval vm_compute in final xform_neg starved_run.
Definition waiting_final : state := Eval vm_compute in final xform1 waiting_run.
Definition flush_fails_final : state := Eval vm_compute in final sink_hook flush_fails.
Definition flush_fails_end : state :=
  Eval vm_compute in
    final_from sink_hook [Tau; UserEnd VUndefined VUndefined VUndefined; Tau]
      flush_fails_final.
Definition sink_end_after_error_final : state :=
  Eval vm_compute in final_from sink1 sink_end_after_error sink_write_after_error_final.
Definition xform_end_after_error_final : state :=
  Eval vm_compute in final_from xform1 xform_end_after_error xform_write_after_error_final.

(** ** Deferred calls of [end] *)

(** [end(chunk, enc, callback)] carries a trailing chunk: after lines 86-94
    (183-191 in the transform) [chunk] is truthy. *)
Definition trailing (chunk : jsval) : bool :=
  truthy chunk && negb (typeof_function chunk).

(** Inputs in which the producer ends without a trailing chunk. *)
Definition plain_input (i : input) : bool :=
  match i with
  | UserEnd chunk _ _ => negb (trailing chunk)
  | _ => true
  end.

Definition chunk_action (a : action) : bool :=
  match a with
  | ARetryEnd chunk _ _ => trailing chunk
  | ARetryWrite _ _ => false
  end.

Definition chunk_listener (l : nat * action) : bool := chunk_action (snd l).

Definition chunk_frame (f : frame) : bool :=
  match f with
  | KEnd chunk _ _ => trailing chunk
  | KOnce _ _ => true
  | _ => false
  end.

(** No call of [end] with a trailing chunk is under way or deferred. *)
Definition plain_inv (s : state) : Prop :=
  count chunk_frame (stack s) = O
  /\ count chunk_listener (onFree s) = O
  /\ count chunk_listener (onEmpty s) = O.

(** Listener identifiers are distinct and below the next one. *)
Definition fresh_inv (s : state) : Prop :=
  Forall (fun x => (fst x < nextListener s)%nat) (onFree s)
  /\ NoDup (map fst (onFree s))
  /\ Forall (fun x => (fst x < nextListener s)%nat) (onEmpty s)
  /\ NoDup (map fst (onEmpty s)).

(** Frames that carry a call of [end] which has not begun the shutdown: the
    call itself and, in the sink, the pending call of the finalize hook, in
    the transform the pending call of the host's [end()]. *)
Definition resume_frame (cfg : config) (f : frame) : bool :=
  match f with
  | KEnd _ _ _ => true
  | KOnce _ a => end_action a
  | KFlush => match kind cfg with Writable => true | Transform => false end
  | KEnd0 => match kind cfg with Writable => false | Transform => true end
  | _ => false
  end.

(** Shutdowns begun: calls of the finalize hook in the sink, calls of the
    host's [end()] in the transform. *)
Definition begun (cfg : config) (t : list obs) : nat :=
  match kind cfg with
  | Writable => count is_flush t
  | Transform => count is_end0 t
  end.

(** While no error is recorded no call of [end] is lost: each one has begun
    the shutdown, or is running, or is deferred on ['free'] or ['empty']. *)
Definition token_eq (cfg : config) (s : state) : Prop :=
  errorEmitted s = false ->
  count is_endcall (trace s)
  = (begun cfg (trace s) + count end_listener (onFree s)
     + count end_listener (onEmpty s) + count (resume_frame cfg) (stack s))%nat.

(** While no error is recorded, every call of the finalize hook has led to a
    call of the host's [end()], or its callback is outstanding or running. *)
Definition finalize_eq (cfg : config) (s : state) : Prop :=
  kind cfg = Writable -> errorEmitted s = false ->
  count is_flush (trace s)
  = (count is_end0 (trace s) + flushing s + count flushed_frame (stack s))%nat.

Definition ids_of (p : nat * action -> bool) (l : list (nat * action)) : list nat :=
  collect (fun x => if p x then Some (fst x) else None) l.

(** A deferred [end] waits on ['free'] with work in flight, or an
    [emit('free')] that will retry it is under way. *)
Definition end_cover (s : state) : Prop :=
  ids_of end_listener (onFree s) = []
  \/ pending s <> 0
  \/ covered (ids_of end_listener (onFree s)) (stack s) = true.

(** A frame that will call the listeners [ws] of ['empty']: the check of
    line 68 about to run, an [emit('empty')] about to start, or a running
    one that still has them on its list. *)
Definition covers_empty (ws : list nat) (f : frame) : bool :=
  match f with
  | KCheckEmpty | KEmit Empty => true
  | KCall Empty ids => forallb (fun j => existsb (Nat.eqb j) ids) ws
  | _ => false
  end.

(** In the sink [callback()] is always followed by the check of line 68. *)
Fixpoint checked (k : list frame) : bool :=
  match k with
  | [] => true
  | KCallback :: rest =>
      match rest with
      | KCheckEmpty :: _ => checked rest
      | _ => false
      end
  | _ :: rest => checked rest
  end.

(** A deferred [end] waits on ['empty'] with writes in the host's buffer, or
    a check that will emit ['empty'] is under way; the transform never
    defers on ['empty']. *)
Definition empty_cover (cfg : config) (s : state) : Prop :=
  match kind cfg with
  | Transform => count end_listener (onEmpty s) = O
  | Writable =>
      checked (stack s) = true
      /\ (ids_of end_listener (onEmpty s) = []
          \/ hbuffer s <> []
          \/ existsb (covers_empty (ids_of end_listener (onEmpty s))) (stack s) = true)
  end.

Definition resume_inv (cfg : config) (s : state) : Prop :=
  balance_inv s /\ end0_inv cfg s /\ plain_inv s /\ fresh_inv s
  /\ token_eq cfg s /\ finalize_eq cfg s /\ end_cover s /\ empty_cover cfg s.

(** ** Works and the chunks they are invoked on *)

(** The invocations of the work function, in order: the number of the work
    and its chunk. *)
Definition works : list obs -> list (nat * jsval) :=
  collect (fun o => match o with OWork j c => Some (j, c) | _ => None end).

(** The k-th invocation has number k. *)
Definition works_inv (s : state) : Prop :=
  works (trace s) = combine (seq 0 (nextWork s)) (dispatched (trace s))
  /\ length (dispatched (trace s)) = nextWork s.

(** ** Further runs and the specification's wording *)

Definition bang : jsval := VStr "bang".

(** Failures reported by the work callbacks, in the order in which the
    callbacks fire. *)
Definition failures : list obs -> list jsval :=
  collect (fun o =>
    match o with
    | ODone _ err _ => if truthy err then Some err else None
    | _ => None
    end).

(** A sink of limit 1 is given two chunks.  The work on the first reports a
    failure later; the ['free'] of that completion dispatches the second
    chunk, and the work on it reports a failure before it returns. *)
Definition nested_failures : list input :=
  [UserWrite chunk_a VUndefined; Tau; Tau; WorkAsync; Tau; Tau; Tau; Tau;
   UserWrite chunk_b VUndefined; Tau; Tau;
   Complete 0 boom VUndefined; Tau; Tau; Tau; Tau;
   WorkSync bang VUndefined; Tau; Tau; Tau; Tau; Tau; Tau; Tau; Tau; Tau; Tau].

(** The same on a transform of limit 1. *)
Definition xform_nested_failures : list input :=
  [UserWrite chunk_a VUndefined; Tau; Tau; WorkAsync; Tau;
   UserWrite chunk_b VUndefined; Tau; Tau;
   Complete 0 boom VUndefined; Tau; Tau; Tau; Tau;
   WorkSync bang VUndefined; Tau; Tau; Tau; Tau; Tau].

(** A sink at rest is ended twice; the finalize hook completes at once both
    times. *)
Definition end_twice : list input :=
  [UserEnd VUndefined VUndefined VUndefined; Tau; FlushSync VUndefined; Tau; Tau;
   UserEnd VUndefined VUndefined VUndefined; Tau; FlushSync VUndefined; Tau; Tau].

(** The run [xform_late], but the work on the third chunk, which is
    dispatched after the host's [end()], reports a failure. *)
Definition xform_late_fails : list input :=
  [UserWrite chunk_a VUndefined; Tau; Tau; WorkAsync; Tau;
   UserWrite chunk_b VUndefined; Tau; Tau;
   UserWrite chunk_c VUndefined; Tau;
   UserEnd VUndefined VUndefined VUndefined; Tau;
   Complete 0 VUndefined VUndefined; Tau; Tau; Tau; Tau;
   WorkSync VUndefined VUndefined; Tau; Tau; Tau; Tau; Tau; Tau; Tau; Tau;
   WorkAsync; Tau; Tau; Tau;
   Complete 2 boom VUndefined; Tau; Tau; Tau].

Definition nested_failures_final : state :=
  Eval vm_compute in final sink1 nested_failures.
Definition xform_nested_failures_final : state :=
  Eval vm_compute in final xform1 xform_nested_failures.
Definition end_twice_final : state := Eval vm_compute in final sink1 end_twice.
Definition xform_late_fails_final : state :=
  Eval vm_compute in final xform1 xform_late_fails.

Fixpoint no_flush (t : list obs) : bool :=
  match t with
  | [] => true
  | OFlush :: _ => false
  | _ :: rest => no_flush rest
  end.

(** The specification's words: the finalize hook is invoked exactly once,
    before completion is signalled. *)
Fixpoint spec_finalize_once (t : list obs) : bool :=
  match t with
  | [] => false
  | OFlush :: rest => no_flush rest
  | OFinish :: _ => false
  | _ :: rest => spec_finalize_once rest
  end.


(** ** Lists *)

Lemma count_app {A : Type} (p : A -> bool) (l1 l2 : list A) :
  count p (l1 ++ l2) = (count p l1 + count p l2)%nat.
Proof.
  induction l1 as [|x l1 IH]; simpl; [reflexivity|].
  rewrite IH. lia.
Qed.

Lemma collect_app {A B : Type} (f : A -> option B) (l1 l2 : list A) :
  collect f (l1 ++ l2) = collect f l1 ++ collect f l2.
Proof.
  induction l1 as [|x l1 IH]; simpl; [reflexivity|].
  destruct (f x); simpl; rewrite IH; reflexivity.
Qed.

Lemma count_zero_collect {A B : Type} (p : A -> bool) (f : A -> option B) (l : list A) :
  (forall x, p x = false -> f x = None) ->
  count p l = O -> collect f l = [].
Proof.
  intros Hpf. induction l as [|x l IH]; simpl; [reflexivity|].
  destruct (p x) eqn:E; simpl; [discriminate|].
  intros H. rewrite (Hpf x E). exact (IH H).
Qed.

Lemma take_id_length (id : nat) (l rest : list nat) :
  take_id id l = Some rest -> length l = S (length rest).
Proof.
  revert rest. induction l as [|x l IH]; simpl; intros rest H; [discriminate|].
  destruct (Nat.eqb id x).
  - injection H as <-. reflexivity.
  - destruct (take_id id l) as [r|]; [|discriminate].
    injection H as <-. simpl. rewrite (IH r eq_refl). reflexivity.
Qed.

Lemma take_listener_count (p : nat * action -> bool)
      (i : nat) (l rest : list (nat * action)) (a : action) :
  take_listener i l = Some (a, rest) ->
  exists j, count p l = ((if p (j, a) then 1 else 0) + count p rest)%nat.
Proof.
  revert rest.
  induction l as [|[j b] l IH]; simpl; intros rest H; [discriminate|].
  destruct (Nat.eqb i j).
  - injection H as <- <-. exists j. reflexivity.
  - destruct (take_listener i l) as [[c r]|]; [|discriminate].
    injection H as <- <-. destruct (IH r eq_refl) as [j' E].
    exists j'. simpl. rewrite E. lia.
Qed.

Lemma take_listener_end (i : nat) (l rest : list (nat * action)) (a : action) :
  take_listener i l = Some (a, rest) ->
  count end_listener l = ((if end_action a then 1 else 0) + count end_listener rest)%nat.
Proof.
  intros H. destruct (take_listener_count end_listener i l rest a H) as [j E].
  exact E.
Qed.

Lemma take_listener_write (i : nat) (l rest : list (nat * action)) (a : action) :
  take_listener i l = Some (a, rest) ->
  count write_listener l
  = ((if end_action a then 0 else 1) + count write_listener rest)%nat.
Proof.
  intros H. destruct (take_listener_count write_listener i l rest a H) as [j E].
  rewrite E. unfold write_listener. simpl. destruct (end_action a); reflexivity.
Qed.

(** ** Proof automation for steps *)

Ltac unfold_ops :=
  cbv beta iota zeta delta
    [stage_write _write _transform dispatch work_sync work_async
     stage_done writable_done transform_done check_empty internal
     stage_end writable_end transform_end flush_sync flush_async
     flush_done host_write host_onwrite host_end host_push finish_maybe
     fail_if fail emit call_next once on_finish end_args
     with_listeners listeners
     with_pending with_errorEmitted with_onFree with_onEmpty with_onFinish
     with_nextListener with_hbuffer with_hwriting with_hending
     with_hfinished with_inflight with_nextWork with_flushing with_stack log
     pending errorEmitted onFree onEmpty onFinish nextListener hbuffer
     hwriting hending hfinished inflight nextWork flushing stack trace].

Ltac break_hyp H :=
  repeat match type of H with
         | context [match ?x with _ => _ end] =>
             first [is_var x; destruct x | destruct x eqn:?]; simpl in H
         end.

(** Splits the innermost test of the goal. *)
Ltac break_goal :=
  repeat match goal with
         | |- context [frame_of ?a] => is_var a; destruct a; simpl
         | |- context [match ?x with _ => _ end] =>
             lazymatch x with
             | context [match _ with _ => _ end] => fail
             | _ => first [is_var x; destruct x | destruct x eqn:?]; simpl
             end
         end.

(** Boolean tests and removals read back as facts for [lia]. *)
Ltac facts :=
  repeat match goal with
         | H : take_id _ _ = Some _ |- _ => apply take_id_length in H
         | H : (_ >=? _) = true |- _ => rewrite Z.geb_leb in H; apply Z.leb_le in H
         | H : (_ >=? _) = false |- _ => rewrite Z.geb_leb in H; apply Z.leb_gt in H
         | H : (_ =? _) = true |- _ => apply Z.eqb_eq in H
         | H : (_ =? _) = false |- _ => apply Z.eqb_neq in H
         | H : negb _ = true |- _ => apply negb_true_iff in H
         | H : negb _ = false |- _ => apply negb_false_iff in H
         end;
  subst.

(** Case analysis of one step: a goal for each frame and input the step
    accepts, with the resulting state spelled out. *)
Ltac step_cases H :=
  match type of H with
  | step _ ?i ?s = Some _ =>
      destruct s as [? ? ? ? ? ? ? ? ? ? ? ? ? stk ?];
      unfold step in H; cbn [stack] in H;
      destruct stk as [|[] ?];
      [ unfold arrive in H | unfold resume in H .. ];
      destruct i; try discriminate H;
      cbn [inflight flushing] in H;
      break_hyp H; try discriminate H;
      injection H as <-; unfold_ops; simpl in *
  end.

Ltac lists := rewrite ?count_app, ?collect_app, ?length_app in *; simpl in *.

Lemma run_invariant (cfg : config) (P : state -> Prop) :
  (forall i s s', P s -> step cfg i s = Some s' -> P s') ->
  forall ins s s', P s -> run cfg ins s = Some s' -> P s'.
Proof.
  intros Hstep ins. induction ins as [|i ins IH]; simpl; intros s s' HP H.
  - injection H as <-. exact HP.
  - destruct (step cfg i s) as [s1|] eqn:E; [|discriminate].
    exact (IH s1 s' (Hstep i s s1 HP E) H).
Qed.

(** ** The in-flight counter *)

Lemma balance_inv_step (cfg : config) (i : input) (s s' : state) :
  balance_inv s -> step cfg i s = Some s' -> balance_inv s'.
Proof.
  unfold balance_inv, outstanding. intros (Heq & Hbal) H.
  step_cases H; break_goal; facts; lists; split; lia.
Qed.

Lemma balance_inv_run (cfg : config) (ins : list input) (s : state) :
  run cfg ins init = Some s -> balance_inv s.
Proof.
  apply (run_invariant cfg balance_inv).
  - apply balance_inv_step.
  - unfold balance_inv, outstanding. simpl. split; lia.
Qed.

Lemma no_outstanding (s : state) :
  balance_inv s -> pending s = 0 ->
  inflight s = [] /\ count is_work (trace s) = count is_done (trace s).
Proof.
  unfold balance_inv, outstanding. intros (Heq & Hbal) H0.
  rewrite H0 in *. split; [|lia].
  destruct (inflight s); [reflexivity|simpl in Heq; lia].
Qed.

Lemma pending_inv_step (cfg : config) (i : input) (s s' : state) :
  pending_inv cfg s -> step cfg i s = Some s' -> pending_inv cfg s'.
Proof.
  unfold pending_inv. intros (Hbal & Hle) H.
  split; [exact (balance_inv_step cfg i s s' Hbal H)|]. clear Hbal.
  step_cases H; break_goal; facts; lists; lia.
Qed.

Lemma pending_inv_run (cfg : config) (ins : list input) (s : state) :
  0 <= concurrency cfg -> run cfg ins init = Some s -> pending_inv cfg s.
Proof.
  intros Hc. apply (run_invariant cfg (pending_inv cfg)).
  - apply pending_inv_step.
  - unfold pending_inv, balance_inv, outstanding. simpl. repeat split; lia.
Qed.

Lemma take_id_count (id j : nat) (l rest : list nat) :
  take_id id l = Some rest ->
  count (Nat.eqb j) l = ((if Nat.eqb j id then 1 else 0) + count (Nat.eqb j) rest)%nat.
Proof.
  revert rest. induction l as [|x l IH]; simpl; intros rest H; [discriminate|].
  destruct (Nat.eqb id x) eqn:E.
  - injection H as <-. apply Nat.eqb_eq in E. subst x. reflexivity.
  - destruct (take_id id l) as [r|]; [|discriminate].
    injection H as <-. simpl. rewrite (IH r eq_refl). lia.
Qed.

Lemma ids_inv_step (cfg : config) (i : input) (s s' : state) :
  ids_inv s -> step cfg i s = Some s' -> ids_inv s'.
Proof.
  unfold ids_inv. intros Hinv H j. specialize (Hinv j).
  destruct Hinv as (Hocc & Hwork). revert Hocc Hwork.
  step_cases H;
    repeat match goal with
           | E : take_id _ _ = Some _ |- _ =>
               rewrite (take_id_count _ j _ _ E); clear E
           end;
    break_goal; lists; break_goal; intros Hocc Hwork;
    repeat match goal with
           | E : Nat.eqb _ _ = true |- _ => apply Nat.eqb_eq in E
           | E : Nat.eqb _ _ = false |- _ => apply Nat.eqb_neq in E
           | E : Nat.ltb _ _ = true |- _ => apply Nat.ltb_lt in E
           | E : Nat.ltb _ _ = false |- _ => apply Nat.ltb_ge in E
           end;
    split; lia.
Qed.

Lemma ids_inv_run (cfg : config) (ins : list input) (s : state) :
  run cfg ins init = Some s -> ids_inv s.
Proof.
  apply (run_invariant cfg ids_inv).
  - apply ids_inv_step.
  - unfold ids_inv. intros id. simpl. split; reflexivity.
Qed.

(** ** Error notifications *)

Lemma error_inv_step (cfg : config) (i : input) (s s' : state) :
  error_inv s -> step cfg i s = Some s' -> error_inv s'.
Proof.
  unfold error_inv, errors. intros Herr H.
  step_cases H; break_goal; facts; lists; try assumption; try lia.
Qed.

Lemma error_inv_run (cfg : config) (ins : list input) (s : state) :
  run cfg ins init = Some s -> error_inv s.
Proof.
  apply (run_invariant cfg error_inv).
  - apply error_inv_step.
  - reflexivity.
Qed.

(** ** The finalize hook *)

Lemma flush_inv_step (cfg : config) (i : input) (s s' : state) :
  flush_inv s -> step cfg i s = Some s' -> flush_inv s'.
Proof.
  unfold flush_inv. intros Hinv H.
  step_cases H; break_goal; facts; lists;
    try discriminate; try tauto; try lia; try (repeat split; (reflexivity || lia)).
Qed.

Lemma flush_inv_run (cfg : config) (ins : list input) (s : state) :
  run cfg ins init = Some s -> flush_inv s.
Proof.
  apply (run_invariant cfg flush_inv).
  - apply flush_inv_step.
  - reflexivity.
Qed.

Lemma token_inv_step (cfg : config) (i : input) (s s' : state) :
  token_inv s -> step cfg i s = Some s' -> token_inv s'.
Proof.
  unfold token_inv. intros Hinv H.
  step_cases H; break_goal; facts; lists;
    repeat match goal with
           | E : take_listener _ _ = Some _ |- _ => apply take_listener_end in E; simpl in E
           end;
    unfold end_listener in *; simpl in *; try lia.
Qed.

Lemma token_inv_run (cfg : config) (ins : list input) (s : state) :
  run cfg ins init = Some s -> token_inv s.
Proof.
  apply (run_invariant cfg token_inv).
  - apply token_inv_step.
  - unfold token_inv. simpl. lia.
Qed.

Lemma finalize_inv_step (cfg : config) (i : input) (s s' : state) :
  finalize_inv cfg s -> step cfg i s = Some s' -> finalize_inv cfg s'.
Proof.
  unfold finalize_inv. intros Hinv H Hk. specialize (Hinv Hk).
  step_cases H; break_goal; facts; lists; try congruence; try lia.
Qed.

Lemma finalize_inv_run (cfg : config) (ins : list input) (s : state) :
  run cfg ins init = Some s -> finalize_inv cfg s.
Proof.
  apply (run_invariant cfg (finalize_inv cfg)).
  - apply finalize_inv_step.
  - unfold finalize_inv. simpl. lia.
Qed.

(** ** The host *)

Lemma host_inv_step (cfg : config) (i : input) (s s' : state) :
  host_inv s -> step cfg i s = Some s' -> host_inv s'.
Proof.
  unfold host_inv. intros (Hfe & He0 & Hfin) H.
  step_cases H; break_goal; facts; lists;
    repeat match goal with
           | E : _ && _ = true |- _ => apply andb_true_iff in E; destruct E
           end;
    facts; simpl in *;
    repeat split; intros; try discriminate; try reflexivity;
    repeat match goal with
           | Hi : ?a = true -> _, Ha : ?a = true |- _ => specialize (Hi Ha)
           | Hi : true = true -> _ |- _ => specialize (Hi eq_refl)
           end;
    try assumption; try lia.
Qed.

Lemma host_inv_run (cfg : config) (ins : list input) (s : state) :
  run cfg ins init = Some s -> host_inv s.
Proof.
  apply (run_invariant cfg host_inv).
  - apply host_inv_step.
  - unfold host_inv. simpl. repeat split; intros; discriminate.
Qed.

(** ** Emitted values *)

Lemma push_inv_step (cfg : config) (i : input) (s s' : state) :
  push_inv cfg s -> step cfg i s = Some s' -> push_inv cfg s'.
Proof.
  unfold push_inv, pushes, outputs. intros Hinv H.
  step_cases H; break_goal; lists;
    repeat match goal with
           | E : truthy ?x = _ |- context [truthy ?x] => rewrite E
           end;
    simpl; rewrite ?app_nil_r; try assumption; try congruence.
Qed.

Lemma push_inv_run (cfg : config) (ins : list input) (s : state) :
  run cfg ins init = Some s -> push_inv cfg s.
Proof.
  apply (run_invariant cfg (push_inv cfg)).
  - apply push_inv_step.
  - unfold push_inv. simpl. destruct (kind cfg); reflexivity.
Qed.

(** ** The host's [end()] in the transform *)

Lemma end0_inv_step (cfg : config) (i : input) (s s' : state) :
  end0_inv cfg s -> step cfg i s = Some s' -> end0_inv cfg s'.
Proof.
  unfold end0_inv. intros Hinv H Hk. specialize (Hinv Hk).
  step_cases H; break_goal; facts; lists;
    try congruence; try discriminate; try tauto; try lia;
    try (repeat split; (reflexivity || tauto || lia)).
Qed.


(** ** Dispatch order *)

Lemma frame_chunk_none (f : frame) : write_frame f = false -> frame_chunk f = None.
Proof.
  destruct f as [| | | | | | | | |ev []| | | |]; simpl; intros H;
    (discriminate || reflexivity).
Qed.

Lemma listener_chunk_none (l : nat * action) :
  write_listener l = false -> listener_chunk l = None.
Proof.
  destruct l as [j [chunk enc|chunk enc cb]]; unfold write_listener, listener_chunk;
    simpl; intros H; (discriminate || reflexivity).
Qed.

Lemma take_listener_split (i : nat) (l rest : list (nat * action)) (a : action) :
  take_listener i l = Some (a, rest) ->
  (count write_listener l <= 1)%nat ->
  collect listener_chunk l = collect listener_chunk [(i, a)] ++ collect listener_chunk rest.
Proof.
  revert rest.
  induction l as [|[j b] l IH]; simpl; intros rest H Hc; [discriminate|].
  destruct (Nat.eqb i j) eqn:E.
  - injection H as <- <-. unfold listener_chunk. simpl.
    destruct b; reflexivity.
  - destruct (take_listener i l) as [[c r]|] eqn:T; [|discriminate].
    injection H as <- <-.
    pose proof (take_listener_write i l r c T) as Hw.
    unfold write_listener, listener_chunk in *. simpl in *.
    destruct b as [chunk enc|chunk enc cb]; simpl in *.
    + destruct c as [chunk' enc'|chunk' enc' cb']; simpl in *; [lia|].
      rewrite (IH r eq_refl) by lia. reflexivity.
    + apply (IH r eq_refl). lia.
Qed.

(** Places that provably hold no waiting chunk are rewritten to [[]]. *)
Ltac zero_counts :=
  repeat match goal with
         | |- context [collect frame_chunk ?k] =>
             let Z := fresh "Z" in
             assert (Z : count write_frame k = O) by lia;
             rewrite (count_zero_collect write_frame frame_chunk k frame_chunk_none Z);
             clear Z
         | |- context [collect listener_chunk ?l] =>
             let Z := fresh "Z" in
             assert (Z : count write_listener l = O) by lia;
             rewrite (count_zero_collect write_listener listener_chunk l
                        listener_chunk_none Z);
             clear Z
         end.

Lemma order_inv_step (cfg : config) (i : input) (s s' : state) :
  order_inv s -> step cfg i s = Some s' -> order_inv s'.
Proof.
  unfold order_inv, waiting, inputs, dispatched. intros (Hord & Hcnt & Hbuf) H.
  step_cases H; break_goal; facts; lists;
    repeat match goal with
           | E : take_listener _ ?l = Some _ |- _ =>
               let Ew := fresh "Ew" in
               pose proof (take_listener_write _ _ _ _ E) as Ew;
               apply take_listener_split in E;
               [ rewrite E in Hord | lia ];
               clear E
           end;
    repeat match goal with
           | Hb : ?b = false -> _ |- _ =>
               first [ specialize (Hb eq_refl) | clear Hb ]
           end;
    subst; simpl in *;
    repeat match goal with
           | a : action |- _ => destruct a; simpl in *
           | Hc : context [if ?b then _ else _] |- _ => is_var b; destruct b
           end;
    (split; [| split; [| intros; try discriminate; try reflexivity; try assumption ]]);
    try lia;
    try (rewrite Hord; zero_counts; simpl;
         rewrite ?map_app, ?app_nil_r, <- ?app_assoc; simpl; reflexivity).
Qed.

Lemma order_inv_run (cfg : config) (ins : list input) (s : state) :
  run cfg ins init = Some s -> order_inv s.
Proof.
  apply (run_invariant cfg order_inv).
  - apply order_inv_step.
  - unfold order_inv. simpl. repeat split; reflexivity.
Qed.

Lemma collect_length_count {A B : Type} (p : A -> bool) (f : A -> option B) (l : list A) :
  (forall x, p x = false -> f x = None) ->
  (length (collect f l) <= count p l)%nat.
Proof.
  intros Hpf. induction l as [|x l IH]; simpl; [lia|].
  destruct (p x) eqn:E.
  - destruct (f x); simpl; lia.
  - rewrite (Hpf x E). simpl. exact IH.
Qed.

Lemma nth_error_prefix {A : Type} (l1 l2 : list A) (n : nat) (x : A) :
  nth_error l1 n = Some x -> nth_error (l1 ++ l2) n = Some x.
Proof.
  intros H. rewrite nth_error_app1; [exact H|].
  apply nth_error_Some. congruence.
Qed.

(** With a frame on the stack the machine is never stuck: some input fits. *)
Lemma step_total (cfg : config) (s : state) :
  stack s <> [] -> exists i s', step cfg i s = Some s'.
Proof.
  intros Hs. unfold step. destruct (stack s) as [|f k]; [contradiction|].
  destruct f; try (exists Tau; eexists; reflexivity).
  - exists WorkAsync. eexists. reflexivity.
  - exists (FlushSync VUndefined). eexists. simpl. destruct (flush cfg); reflexivity.
Qed.

(** A stage built from options whose [concurrency] is missing, falsy or a
    non-negative integer has a limit of at least 1. *)
Lemma constructed_limit_positive (c : ctor) (cfg : config) (v : jsval) :
  c_concurrency c = js_or v (VNum 1) ->
  match v with VNum n => 0 <= n | _ => truthy v = false end ->
  stage_of c = Some cfg ->
  1 <= concurrency cfg.
Proof.
  unfold stage_of, js_or. intros -> Hv.
  destruct v as [| |b|n| |str|props|f]; try discriminate Hv;
    try (rewrite Hv); simpl;
    try (intros H; injection H as <-; simpl; lia).
  destruct (n =? 0) eqn:E; simpl; intros H; injection H as <-; simpl.
  - lia.
  - apply Z.eqb_neq in E. lia.
Qed.

(** * Further invariants *)

Lemma frame_id_of_none (f : frame) : live f = false -> frame_id_of f = None.
Proof. destruct f; simpl; intros H; (discriminate || reflexivity). Qed.

Lemma starved_inv_step (cfg : config) (i : input) (s s' : state) :
  concurrency cfg <= 0 ->
  starved_inv s -> step cfg i s = Some s' -> starved_inv s'.
Proof.
  unfold starved_inv. intros Hc (Hp & Hw & Hl & Hi) H.
  step_cases H; break_goal; facts; lists;
    try discriminate; try lia; repeat split; (assumption || reflexivity || lia).
Qed.

Lemma take_id_single (id : nat) (l rest : list nat) :
  take_id id l = Some rest -> (length l <= 1)%nat -> l = [id] /\ rest = [].
Proof.
  destruct l as [|x [|y l]]; simpl; intros H Hl; try discriminate; try lia.
  destruct (Nat.eqb id x) eqn:E; [|discriminate].
  apply Nat.eqb_eq in E. injection H as <-. subst x. split; reflexivity.
Qed.

(** Lists that provably are empty are rewritten to [[]]. *)
Ltac empty_lists :=
  repeat match goal with
         | |- context [collect frame_id_of ?k] =>
             let Z := fresh "Z" in
             assert (Z : count live k = O) by lia;
             rewrite (count_zero_collect live frame_id_of k frame_id_of_none Z);
             clear Z
         | l : list nat |- _ =>
             let Z := fresh "Z" in
             assert (Z : length l = O) by lia;
             apply length_zero_iff_nil in Z; subst l
         end.

Lemma serial_inv_step (cfg : config) (i : input) (s s' : state) :
  concurrency cfg = 1 ->
  serial_inv cfg s -> step cfg i s = Some s' -> serial_inv cfg s'.
Proof.
  unfold serial_inv. intros Hc (Hp & Hs) H.
  split; [exact (pending_inv_step cfg i s s' Hp H)|].
  destruct Hp as ((Hout & _) & Hle). unfold outstanding in Hout.
  rewrite Hc in *. unfold work_ids, done_ids in *.
  step_cases H;
    repeat match goal with
           | E : take_id _ _ = Some _ |- _ =>
               apply take_id_single in E; [destruct E; subst | simpl in *; lia]
           end;
    break_goal; facts; lists;
    rewrite ?app_nil_r; try assumption;
    rewrite Hs; empty_lists; simpl; rewrite ?app_nil_r, <- ?app_assoc; reflexivity.
Qed.

Lemma app_prefix_length {A : Type} (l1 l2 k1 k2 : list A) :
  l1 ++ l2 = k1 ++ k2 -> length l1 = length k1 -> l1 = k1.
Proof.
  revert k1. induction l1 as [|x l1 IH]; intros [|y k1] H Hl; simpl in *;
    try discriminate; [reflexivity|].
  injection H as -> H. f_equal. apply IH; [exact H|lia].
Qed.

Lemma work_ids_seq (cfg : config) (ins : list input) (s : state) :
  run cfg ins init = Some s -> work_ids (trace s) = seq 0 (nextWork s).
Proof.
  apply (run_invariant cfg (fun s => work_ids (trace s) = seq 0 (nextWork s))).
  - intros i s0 s1 Hinv H. unfold work_ids in *.
    step_cases H; break_goal; lists; rewrite ?app_nil_r; try assumption;
      rewrite Hinv; exact (eq_sym (seq_S _ 0)).
  - reflexivity.
Qed.

Lemma blocked_step (cfg : config) (i : input) (s s' : state) :
  blocked s -> step cfg i s = Some s' ->
  blocked s'
  /\ count is_flush (trace s') = count is_flush (trace s)
  /\ count is_end0 (trace s') = count is_end0 (trace s)
  /\ errors (trace s') = errors (trace s)
  /\ hending s' = hending s
  /\ (hending s = false -> count is_finish (trace s') = count is_finish (trace s)).
Proof.
  unfold blocked, errors. intros (He & Hf & Hs) H.
  step_cases H; subst; simpl in *; try discriminate;
    break_goal; lists; rewrite ?app_nil_r;
    repeat split; try reflexivity; try assumption; try lia;
    intros; subst; simpl in *; try discriminate; try lia.
Qed.

Lemma blocked_run (cfg : config) (ins : list input) (s s' : state) :
  blocked s -> run cfg ins s = Some s' ->
  blocked s'
  /\ count is_flush (trace s') = count is_flush (trace s)
  /\ count is_end0 (trace s') = count is_end0 (trace s)
  /\ errors (trace s') = errors (trace s)
  /\ hending s' = hending s
  /\ (hending s = false -> count is_finish (trace s') = count is_finish (trace s)).
Proof.
  revert s. induction ins as [|i ins IH]; simpl; intros s Hb H.
  - injection H as <-. repeat split; try reflexivity; apply Hb.
  - destruct (step cfg i s) as [s1|] eqn:E; [|discriminate].
    destruct (blocked_step cfg i s s1 Hb E) as (Hb1 & Hf1 & He1 & Hr1 & Hh1 & Hn1).
    destruct (IH s1 Hb1 H) as (Hb2 & Hf2 & He2 & Hr2 & Hh2 & Hn2).
    repeat split; try apply Hb2; try congruence.
    intros Hh. rewrite Hn2, Hn1; congruence.
Qed.

Lemma shutdown_frame_split (k : list frame) :
  count shutdown_frame k = (count flushed_frame k + count is_kflush k)%nat.
Proof.
  induction k as [|f k IH]; simpl; [reflexivity|].
  rewrite IH. destruct f; simpl; lia.
Qed.

Lemma error_end0_inv_step (cfg : config) (i : input) (s s' : state) :
  error_end0_inv cfg s -> step cfg i s = Some s' -> error_end0_inv cfg s'.
Proof.
  unfold error_end0_inv. intros (Hend & Herr) H.
  split; [exact (end0_inv_step cfg i s s' Hend H)|].
  intros Hk. specialize (Hend Hk). specialize (Herr Hk).
  destruct Hend as (_ & Hfr & Hend).
  step_cases H; try congruence; try discriminate Hfr; break_goal; lists; intros He;
    try discriminate; try (apply Herr; assumption); try lia;
    try (destruct Hend; lia).
Qed.

Lemma error_end0_inv_run (cfg : config) (ins : list input) (s : state) :
  run cfg ins init = Some s -> error_end0_inv cfg s.
Proof.
  apply (run_invariant cfg (error_end0_inv cfg)).
  - apply error_end0_inv_step.
  - unfold error_end0_inv, end0_inv. simpl. auto.
Qed.

Lemma take_listener_parts (i : nat) (l rest : list (nat * action)) (a : action) :
  take_listener i l = Some (a, rest) ->
  exists l1 l2, l = l1 ++ (i, a) :: l2 /\ rest = l1 ++ l2.
Proof.
  revert rest. induction l as [|[j b] l IH]; simpl; intros rest H; [discriminate|].
  destruct (Nat.eqb i j) eqn:E.
  - injection H as <- <-. apply Nat.eqb_eq in E. subst j.
    exists [], l. split; reflexivity.
  - destruct (take_listener i l) as [[c r]|]; [|discriminate].
    injection H as <- <-. destruct (IH r eq_refl) as (l1 & l2 & -> & ->).
    exists ((j, b) :: l1), l2. split; reflexivity.
Qed.

Lemma take_listener_none (i : nat) (l : list (nat * action)) :
  take_listener i l = None -> ~ In i (map fst l).
Proof.
  induction l as [|[j b] l IH]; simpl; intros H; [tauto|].
  destruct (Nat.eqb i j) eqn:E; [discriminate|].
  destruct (take_listener i l) as [[c r]|]; [discriminate|].
  apply Nat.eqb_neq in E. intros [Hj|Hin]; [congruence|exact (IH eq_refl Hin)].
Qed.

Lemma write_ids_app (l1 l2 : list (nat * action)) :
  write_ids (l1 ++ l2) = write_ids l1 ++ write_ids l2.
Proof. apply collect_app. Qed.

Lemma write_ids_in (j : nat) (l : list (nat * action)) :
  In j (write_ids l) -> In j (map fst l).
Proof.
  induction l as [|[i a] l IH]; simpl; [tauto|].
  unfold write_ids in *. simpl. destruct (write_listener (i, a)); simpl; intuition.
Qed.

Lemma covers_incl (ws ws' : list nat) (f : frame) :
  incl ws' ws -> covers ws f = true -> covers ws' f = true.
Proof.
  intros Hincl. destruct f; simpl; try (intros; assumption).
  destruct ev; [|intros; assumption].
  rewrite !forallb_forall. intros H j Hj. apply H, Hincl, Hj.
Qed.

Lemma covered_incl (ws ws' : list nat) (k : list frame) :
  incl ws' ws -> covered ws k = true -> covered ws' k = true.
Proof.
  intros Hincl. unfold covered. rewrite !existsb_exists.
  intros (f & Hf & Hc). exists f. split; [exact Hf|].
  exact (covers_incl ws ws' f Hincl Hc).
Qed.

Lemma covers_snapshot (l : list (nat * action)) :
  forallb (fun j => existsb (Nat.eqb j) (map fst l)) (write_ids l) = true.
Proof.
  apply forallb_forall. intros j Hj. apply existsb_exists.
  exists j. split; [exact (write_ids_in j l Hj)|apply Nat.eqb_refl].
Qed.

Lemma covers_tail (ws : list nat) (i : nat) (ids : list nat) :
  ~ In i ws ->
  forallb (fun j => existsb (Nat.eqb j) (i :: ids)) ws = true ->
  forallb (fun j => existsb (Nat.eqb j) ids) ws = true.
Proof.
  rewrite !forallb_forall. intros Hi H j Hj. specialize (H j Hj).
  simpl in H. apply orb_true_iff in H. destruct H as [H|H]; [|exact H].
  apply Nat.eqb_eq in H. subst j. contradiction.
Qed.

Lemma fresh_weaken (n : nat) (l : list (nat * action)) :
  Forall (fun x => (fst x < n)%nat) l -> Forall (fun x => (fst x < S n)%nat) l.
Proof. apply Forall_impl. intros x Hx. lia. Qed.

Lemma fresh_Forall (n : nat) (l : list (nat * action)) (a : action) :
  Forall (fun x => (fst x < n)%nat) l ->
  Forall (fun x => (fst x < S n)%nat) (l ++ [(n, a)]).
Proof.
  intros H. apply Forall_app. split; [exact (fresh_weaken n l H)|].
  constructor; [simpl; lia|constructor].
Qed.

Lemma fresh_NoDup (n : nat) (l : list (nat * action)) (a : action) :
  Forall (fun x => (fst x < n)%nat) l -> NoDup (map fst l) ->
  NoDup (map fst (l ++ [(n, a)])).
Proof.
  intros Hlt Hnd. rewrite map_app. simpl.
  apply NoDup_remove_inv with (a := n) (l' := []) in Hnd || idtac.
  assert (Hn : ~ In n (map fst l)).
  { intros Hin. apply in_map_iff in Hin. destruct Hin as (x & Hx & Hin).
    rewrite Forall_forall in Hlt. specialize (Hlt x Hin). lia. }
  clear Hlt. induction l as [|x l IH]; simpl in *.
  - constructor; [tauto|constructor].
  - inversion Hnd as [|y k Hy Hk]; subst. constructor.
    + rewrite in_app_iff. simpl. intuition.
    + apply IH; [exact Hk|tauto].
Qed.

Lemma take_listener_Forall (i : nat) (l rest : list (nat * action)) (a : action)
    (P : nat * action -> Prop) :
  take_listener i l = Some (a, rest) -> Forall P l -> Forall P rest.
Proof.
  intros H Hl. destruct (take_listener_parts i l rest a H) as (l1 & l2 & -> & ->).
  apply Forall_app in Hl. destruct Hl as (H1 & H2). inversion H2; subst.
  apply Forall_app. split; assumption.
Qed.

Lemma take_listener_NoDup (i : nat) (l rest : list (nat * action)) (a : action) :
  take_listener i l = Some (a, rest) -> NoDup (map fst l) ->
  NoDup (map fst rest) /\ ~ In i (map fst rest).
Proof.
  intros H Hl. destruct (take_listener_parts i l rest a H) as (l1 & l2 & -> & ->).
  rewrite map_app in *. simpl in Hl. split.
  - exact (NoDup_remove_1 _ _ _ Hl).
  - exact (NoDup_remove_2 _ _ _ Hl).
Qed.

Lemma take_listener_incl (i : nat) (l rest : list (nat * action)) (a : action) :
  take_listener i l = Some (a, rest) -> incl (write_ids rest) (write_ids l).
Proof.
  intros H. destruct (take_listener_parts i l rest a H) as (l1 & l2 & -> & ->).
  rewrite !write_ids_app. intros j Hj. rewrite in_app_iff in *.
  destruct Hj as [Hj|Hj]; [left; exact Hj|right].
  unfold write_ids in *. simpl. destruct (write_listener (i, a)); simpl; tauto.
Qed.

Lemma cover_after_call (i : nat) (l rest : list (nat * action)) (a : action)
    (ids : list nat) (stk : list frame) :
  NoDup (map fst l) -> take_listener i l = Some (a, rest) ->
  forallb (fun j => existsb (Nat.eqb j) (i :: ids)) (write_ids l)
    || existsb (covers (write_ids l)) stk = true ->
  forallb (fun j => existsb (Nat.eqb j) ids) (write_ids rest)
    || existsb (covers (write_ids rest)) stk = true.
Proof.
  intros Hnd H Hc. pose proof (take_listener_incl i l rest a H) as Hincl.
  destruct (take_listener_NoDup i l rest a H Hnd) as (_ & Hi).
  apply orb_true_iff in Hc. apply orb_true_iff. destruct Hc as [Hc|Hc].
  - left. apply (covers_tail _ i).
    + intros Hin. exact (Hi (write_ids_in i rest Hin)).
    + rewrite forallb_forall in *. intros j Hj. apply Hc, Hincl, Hj.
  - right. exact (covered_incl _ _ stk Hincl Hc).
Qed.

Lemma cover_after_skip (i : nat) (l : list (nat * action))
    (ids : list nat) (stk : list frame) :
  take_listener i l = None ->
  forallb (fun j => existsb (Nat.eqb j) (i :: ids)) (write_ids l)
    || existsb (covers (write_ids l)) stk = true ->
  forallb (fun j => existsb (Nat.eqb j) ids) (write_ids l)
    || existsb (covers (write_ids l)) stk = true.
Proof.
  intros H Hc. apply take_listener_none in H.
  apply orb_true_iff in Hc. apply orb_true_iff. destruct Hc as [Hc|Hc]; [left|right; exact Hc].
  apply (covers_tail _ i); [|exact Hc].
  intros Hin. exact (H (write_ids_in i l Hin)).
Qed.

Lemma write_ids_nil_incl (l rest : list (nat * action)) :
  incl (write_ids rest) (write_ids l) -> write_ids l = [] -> write_ids rest = [].
Proof.
  intros Hincl E. rewrite E in Hincl. destruct (write_ids rest) as [|j r]; [reflexivity|].
  destruct (Hincl j (or_introl eq_refl)).
Qed.

Lemma cover_inv_step (cfg : config) (i : input) (s s' : state) :
  cover_inv cfg s -> step cfg i s = Some s' -> cover_inv cfg s'.
Proof.
  unfold cover_inv, covered. intros (Hlt & Hnd & Hk & He & Hcov) H.
  step_cases H;
    repeat match goal with
           | a : action |- _ => destruct a; simpl in *; try discriminate
           end;
    break_goal; facts; lists.
  all: try discriminate.
  all: repeat match goal with
         | E : take_listener _ _ = Some _ |- _ =>
             try pose proof (take_listener_Forall _ _ _ _ _ E Hlt);
             try pose proof (proj1 (take_listener_NoDup _ _ _ _ E Hnd));
             pose proof (take_listener_incl _ _ _ _ E);
             pose proof (take_listener_count write_listener _ _ _ _ E);
             revert E
         | E : take_listener _ _ = None |- _ =>
             revert E
         end; intros.
  all: rewrite ?write_ids_app; simpl; rewrite ?app_nil_r.
  all: repeat split; try assumption; try lia.
  all: try (apply fresh_Forall; assumption).
  all: try (apply fresh_weaken; assumption).
  all: try (apply fresh_NoDup; assumption).
  all: rewrite ?orb_false_r in *; rewrite ?orb_true_r in *.
  all: try (right; right; reflexivity).
  all: try (destruct Hcov as [Hcov|[Hcov|Hcov]];
            [left; assumption|right; left; lia|right; right; assumption]).
  all: try (right; right; rewrite covers_snapshot; reflexivity).
  all: try (destruct Hcov as [Hcov|[Hcov|Hcov]];
            [left; eauto using write_ids_nil_incl|right; left; lia|right; right; auto];
            fail).
  all: try (destruct Hcov as [Hcov|[Hcov|Hcov]];
            [left; eauto using write_ids_nil_incl|right; left; lia|right; right];
            first [eapply cover_after_call; [exact Hnd|eassumption|eassumption]
                  |eapply cover_after_skip; eassumption]).
  - destruct Hcov as [Hcov|[Hcov|Hcov]]; [left; exact Hcov|right; left; exact Hcov|].
    destruct ev; [|right; right; exact Hcov].
    destruct (write_ids _); [left; reflexivity|right; right; exact Hcov].
  - match goal with E : exists _, _ |- _ => destruct E as [j E]; simpl in E; lia end.
  - match goal with E : exists _, _ |- _ => destruct E as [j E]; simpl in E; lia end.
Qed.

Lemma cover_inv_run (cfg : config) (ins : list input) (s : state) :
  run cfg ins init = Some s -> cover_inv cfg s.
Proof.
  apply (run_invariant cfg (cover_inv cfg)).
  - apply cover_inv_step.
  - unfold cover_inv. simpl. split; [constructor|]. split; [constructor|].
    split; [reflexivity|]. split; [reflexivity|]. left. reflexivity.
Qed.

Lemma single_write_listener (l : list (nat * action)) :
  count write_listener l = 1%nat ->
  exists i chunk enc,
    In (i, ARetryWrite chunk enc) l /\ collect listener_chunk l = [chunk].
Proof.
  induction l as [|[i a] l IH]; simpl; intros H; [discriminate|].
  destruct a as [chunk enc|chunk enc cb]; simpl in *.
  - exists i, chunk, enc. split; [left; reflexivity|].
    rewrite (count_zero_collect write_listener listener_chunk l listener_chunk_none);
      [reflexivity|lia].
  - destruct (IH H) as (j & chunk' & enc' & Hin & Hc).
    exists j, chunk', enc'. split; [right; exact Hin|exact Hc].
Qed.

Lemma write_ids_count (l : list (nat * action)) :
  length (write_ids l) = count write_listener l.
Proof.
  unfold write_ids. induction l as [|x l IH]; simpl; [reflexivity|].
  destruct (write_listener x); simpl; rewrite IH; reflexivity.
Qed.

Lemma run_step (cfg : config) (i : input) (ins : list input) (s s1 : state) :
  step cfg i s = Some s1 -> run cfg (i :: ins) s = run cfg ins s1.
Proof. intros H. simpl. rewrite H. reflexivity. Qed.

(** One step of the machine on a state that is spelled out. *)
Ltac exec :=
  cbv beta iota zeta delta
    [step arrive resume kind concurrency flush take_listener frame_of map fst snd
     negb andb orb
     stage_write _write _transform dispatch work_sync work_async
     stage_done writable_done transform_done check_empty internal
     stage_end writable_end transform_end flush_sync flush_async
     flush_done host_write host_onwrite host_end host_push finish_maybe
     fail_if fail emit call_next once on_finish end_args
     with_listeners listeners
     with_pending with_errorEmitted with_onFree with_onEmpty with_onFinish
     with_nextListener with_hbuffer with_hwriting with_hending
     with_hfinished with_inflight with_nextWork with_flushing with_stack log
     pending errorEmitted onFree onEmpty onFinish nextListener hbuffer
     hwriting hending hfinished inflight nextWork flushing stack trace].

(** Takes the next input of a run, deciding the tests of the step with
    [tac]. *)
Ltac next tac := erewrite run_step; [|exec; tac; exec; reflexivity].

(** * Deferred calls of [end] are resumed *)

Lemma run_invariant_on (cfg : config) (Q : input -> bool) (P : state -> Prop) :
  (forall i s s', Q i = true -> P s -> step cfg i s = Some s' -> P s') ->
  forall ins s s', forallb Q ins = true -> P s -> run cfg ins s = Some s' -> P s'.
Proof.
  intros Hstep ins. induction ins as [|i ins IH]; simpl; intros s s' HQ HP H.
  - injection H as <-. exact HP.
  - apply andb_true_iff in HQ. destruct HQ as (Hi & HQ).
    destruct (step cfg i s) as [s1|] eqn:E; [|discriminate].
    exact (IH s1 s' HQ (Hstep i s s1 Hi HP E) H).
Qed.

Lemma trailing_args (chunk enc cb : jsval) :
  trailing chunk = false ->
  exists chunk' enc' cb',
    end_args chunk enc cb = (chunk', enc', cb') /\ truthy chunk' = false.
Proof.
  unfold trailing, end_args. intros H.
  destruct (typeof_function chunk), (typeof_function enc); simpl in *;
    rewrite ?andb_true_r, ?andb_false_r in H;
    eexists; eexists; eexists; (split; [reflexivity|]); (reflexivity || exact H).
Qed.

Lemma plain_inv_step (cfg : config) (i : input) (s s' : state) :
  plain_input i = true -> plain_inv s -> step cfg i s = Some s' -> plain_inv s'.
Proof.
  unfold plain_inv. intros Hi (Hk & Hf & He) H.
  unfold chunk_listener in *.
  step_cases H; break_goal; facts; lists;
    repeat match goal with
           | E : take_listener _ _ = Some _ |- _ =>
               pose proof (take_listener_count (fun l => chunk_action (snd l)) _ _ _ _ E);
               revert E
           end; intros;
    repeat match goal with
           | E : exists _, _ |- _ => destruct E as [? E]; simpl in E
           end;
    try discriminate; try (repeat split; lia).
  all: unfold trailing in *;
    repeat match goal with
           | E : truthy _ = _ |- _ => rewrite E in *
           | E : typeof_function _ = _ |- _ => rewrite E in *
           | E : (_ && _) = _ |- _ => rewrite E in *
           end;
    simpl in *; lia.
Qed.

Lemma plain_inv_run (cfg : config) (ins : list input) (s : state) :
  forallb plain_input ins = true -> run cfg ins init = Some s -> plain_inv s.
Proof.
  intros Hp. apply (run_invariant_on cfg plain_input plain_inv); [|exact Hp|].
  - intros i s0 s1. apply plain_inv_step.
  - unfold plain_inv. simpl. repeat split; reflexivity.
Qed.

Lemma fresh_inv_step (cfg : config) (i : input) (s s' : state) :
  fresh_inv s -> step cfg i s = Some s' -> fresh_inv s'.
Proof.
  unfold fresh_inv. intros (Hlf & Hnf & Hle & Hne) H.
  step_cases H; break_goal; facts; lists;
    repeat match goal with
           | E : take_listener _ _ = Some _ |- _ =>
               try pose proof (take_listener_Forall _ _ _ _ _ E Hlf);
               try pose proof (proj1 (take_listener_NoDup _ _ _ _ E Hnf));
               try pose proof (take_listener_Forall _ _ _ _ _ E Hle);
               try pose proof (proj1 (take_listener_NoDup _ _ _ _ E Hne));
               revert E
           end; intros;
    repeat split; try assumption;
    try (apply fresh_Forall; assumption);
    try (apply fresh_weaken; assumption);
    try (apply fresh_NoDup; assumption).
Qed.

Lemma fresh_inv_run (cfg : config) (ins : list input) (s : state) :
  run cfg ins init = Some s -> fresh_inv s.
Proof.
  apply (run_invariant cfg fresh_inv).
  - apply fresh_inv_step.
  - unfold fresh_inv. simpl. repeat split; constructor.
Qed.

Lemma token_eq_step (cfg : config) (i : input) (s s' : state) :
  end0_inv cfg s -> token_eq cfg s -> step cfg i s = Some s' -> token_eq cfg s'.
Proof.
  unfold token_eq, end0_inv, begun, end_listener. intros H0 Htok H.
  destruct (kind cfg) eqn:Hk.
  - clear H0.
    step_cases H; break_goal; facts; lists; intros He;
      try discriminate;
      try specialize (Htok eq_refl); try specialize (Htok He);
      repeat match goal with
             | E : take_listener _ _ = Some _ |- _ =>
                 pose proof (take_listener_count (fun l => end_action (snd l)) _ _ _ _ E);
                 revert E
             end; intros;
      repeat match goal with
             | E : exists _, _ |- _ => destruct E as [? E]; simpl in E
             end;
      rewrite ?Hk in *; try lia.
  - specialize (H0 eq_refl). destruct H0 as (Hfl & Hfr & _).
    step_cases H; break_goal; facts; lists; intros He;
      try discriminate;
      try specialize (Htok eq_refl); try specialize (Htok He);
      repeat match goal with
             | E : take_listener _ _ = Some _ |- _ =>
                 pose proof (take_listener_count (fun l => end_action (snd l)) _ _ _ _ E);
                 revert E
             end; intros;
      repeat match goal with
             | E : exists _, _ |- _ => destruct E as [? E]; simpl in E
             end;
      rewrite ?Hk in *; try lia.
Qed.

Lemma finalize_eq_step (cfg : config) (i : input) (s s' : state) :
  finalize_eq cfg s -> step cfg i s = Some s' -> finalize_eq cfg s'.
Proof.
  unfold finalize_eq. intros Hfin H Hk.
  specialize (Hfin Hk).
  step_cases H; try congruence; break_goal; facts; lists; intros He;
    try discriminate;
    try specialize (Hfin eq_refl); try specialize (Hfin He); try lia.
Qed.

Section Cover.

Variable p : nat * action -> bool.
Variable cov : list nat -> frame -> bool.
Hypothesis cov_incl :
  forall ws ws' f, incl ws' ws -> cov ws f = true -> cov ws' f = true.

Lemma ids_of_app (l1 l2 : list (nat * action)) :
  ids_of p (l1 ++ l2) = ids_of p l1 ++ ids_of p l2.
Proof. apply collect_app. Qed.

Lemma ids_of_in (j : nat) (l : list (nat * action)) :
  In j (ids_of p l) -> In j (map fst l).
Proof.
  unfold ids_of. induction l as [|x l IH]; simpl; [tauto|].
  destruct (p x); simpl; intuition.
Qed.

Lemma ids_of_count (l : list (nat * action)) :
  length (ids_of p l) = count p l.
Proof.
  unfold ids_of. induction l as [|x l IH]; simpl; [reflexivity|].
  destruct (p x); simpl; rewrite IH; reflexivity.
Qed.

Lemma ids_of_snapshot (l : list (nat * action)) :
  forallb (fun j => existsb (Nat.eqb j) (map fst l)) (ids_of p l) = true.
Proof.
  apply forallb_forall. intros j Hj. apply existsb_exists.
  exists j. split; [exact (ids_of_in j l Hj)|apply Nat.eqb_refl].
Qed.

Lemma ids_of_taken (i : nat) (l rest : list (nat * action)) (a : action) :
  take_listener i l = Some (a, rest) -> incl (ids_of p rest) (ids_of p l).
Proof.
  intros H. destruct (take_listener_parts i l rest a H) as (l1 & l2 & -> & ->).
  rewrite !ids_of_app. intros j Hj. rewrite in_app_iff in *.
  destruct Hj as [Hj|Hj]; [left; exact Hj|right].
  unfold ids_of in *. simpl. destruct (p (i, a)); simpl; tauto.
Qed.

Lemma covering_incl (ws ws' : list nat) (k : list frame) :
  incl ws' ws -> existsb (cov ws) k = true -> existsb (cov ws') k = true.
Proof.
  intros Hincl. rewrite !existsb_exists.
  intros (f & Hf & Hc). exists f. split; [exact Hf|].
  exact (cov_incl ws ws' f Hincl Hc).
Qed.

Lemma ids_after_call (i : nat) (l rest : list (nat * action)) (a : action)
    (ids : list nat) (stk : list frame) :
  NoDup (map fst l) -> take_listener i l = Some (a, rest) ->
  forallb (fun j => existsb (Nat.eqb j) (i :: ids)) (ids_of p l)
    || existsb (cov (ids_of p l)) stk = true ->
  forallb (fun j => existsb (Nat.eqb j) ids) (ids_of p rest)
    || existsb (cov (ids_of p rest)) stk = true.
Proof.
  intros Hnd H Hc. pose proof (ids_of_taken i l rest a H) as Hincl.
  destruct (take_listener_NoDup i l rest a H Hnd) as (_ & Hi).
  apply orb_true_iff in Hc. apply orb_true_iff. destruct Hc as [Hc|Hc].
  - left. apply (covers_tail _ i).
    + intros Hin. exact (Hi (ids_of_in i rest Hin)).
    + rewrite forallb_forall in *. intros j Hj. apply Hc, Hincl, Hj.
  - right. exact (covering_incl _ _ stk Hincl Hc).
Qed.

Lemma ids_after_skip (i : nat) (l : list (nat * action))
    (ids : list nat) (stk : list frame) :
  take_listener i l = None ->
  forallb (fun j => existsb (Nat.eqb j) (i :: ids)) (ids_of p l)
    || existsb (cov (ids_of p l)) stk = true ->
  forallb (fun j => existsb (Nat.eqb j) ids) (ids_of p l)
    || existsb (cov (ids_of p l)) stk = true.
Proof.
  intros H Hc. apply take_listener_none in H.
  apply orb_true_iff in Hc. apply orb_true_iff.
  destruct Hc as [Hc|Hc]; [left|right; exact Hc].
  apply (covers_tail _ i); [|exact Hc].
  intros Hin. exact (H (ids_of_in i l Hin)).
Qed.

Lemma ids_of_nil_incl (l rest : list (nat * action)) :
  incl (ids_of p rest) (ids_of p l) -> ids_of p l = [] -> ids_of p rest = [].
Proof.
  intros Hincl E. rewrite E in Hincl.
  destruct (ids_of p rest) as [|j r]; [reflexivity|].
  destruct (Hincl j (or_introl eq_refl)).
Qed.

End Cover.

Lemma covers_empty_incl (ws ws' : list nat) (f : frame) :
  incl ws' ws -> covers_empty ws f = true -> covers_empty ws' f = true.
Proof.
  intros Hincl. destruct f; simpl; try (intros; assumption).
  destruct ev; [intros; assumption|].
  rewrite !forallb_forall. intros H j Hj. apply H, Hincl, Hj.
Qed.

Lemma end_cover_step (cfg : config) (i : input) (s s' : state) :
  0 <= pending s -> plain_inv s -> fresh_inv s ->
  end_cover s -> step cfg i s = Some s' -> end_cover s'.
Proof.
  unfold end_cover, covered, plain_inv, fresh_inv.
  intros Hp (Hpk & _ & _) (_ & Hnd & _ & _) Hcov H.
  step_cases H; break_goal; facts; lists.
  all: try discriminate.
  all: rewrite ?ids_of_app; simpl; rewrite ?app_nil_r.
  all: rewrite ?orb_false_r in *; rewrite ?orb_true_r in *.
  all: try (right; right; reflexivity).
  all: try (right; left; lia).
  all: try (destruct Hcov as [Hcov|[Hcov|Hcov]];
            [left; assumption|right; left; lia|right; right; assumption]).
  all: try (right; right; rewrite ids_of_snapshot; reflexivity).
  all: try (pose proof ids_of_taken;
            destruct Hcov as [Hcov|[Hcov|Hcov]];
            [left; eauto using ids_of_nil_incl|right; left; lia|right; right];
            first [eapply (ids_after_call _ _ covers_incl); [exact Hnd|eassumption|eassumption]
                  |eapply ids_after_skip; eassumption]).
  destruct Hcov as [Hcov|[Hcov|Hcov]]; [left; exact Hcov|right; left; exact Hcov|].
  destruct ev; [|right; right; exact Hcov].
  destruct (ids_of end_listener _); [left; reflexivity|right; right; exact Hcov].
Qed.

Lemma checked_tail (f : frame) (k : list frame) :
  checked (f :: k) = true -> checked k = true.
Proof.
  destruct f; simpl; try (intros; assumption).
  destruct k as [|[] k]; simpl; intros H; (discriminate || assumption).
Qed.

Lemma empty_cover_step (cfg : config) (i : input) (s s' : state) :
  plain_inv s -> fresh_inv s ->
  empty_cover cfg s -> step cfg i s = Some s' -> empty_cover cfg s'.
Proof.
  unfold empty_cover, plain_inv, fresh_inv.
  intros (Hpk & _ & _) (_ & _ & _ & Hnd) Hcov H.
  destruct (kind cfg) eqn:Hk.
  - destruct Hcov as (Hchk & Hcov).
    step_cases H; try congruence.
    all: match goal with
         | Hc : checked (KCallback :: ?k) = true |- _ =>
             simpl in Hc; destruct k as [|[] ?]; try discriminate Hc
         | _ => idtac
         end.
    all: break_goal; facts; lists.
    all: try discriminate.
    all: rewrite ?ids_of_app; simpl; rewrite ?app_nil_r.
    all: rewrite ?orb_false_r in *; rewrite ?orb_true_r in *.
    all: split; [try assumption; try reflexivity|].
    all: try assumption.
    all: try (right; right; reflexivity).
    all: try (right; left; discriminate).
    all: try (destruct Hcov as [Hcov|[Hcov|Hcov]];
              [left; assumption|right; left; assumption|right; right; assumption]).
    all: try (right; right; rewrite ids_of_snapshot; reflexivity).
    all: try (pose proof ids_of_taken;
              destruct Hcov as [Hcov|[Hcov|Hcov]];
              [left; eauto using ids_of_nil_incl|right; left; assumption|right; right];
              first [eapply (ids_after_call _ _ covers_empty_incl);
                       [exact Hnd|eassumption|eassumption]
                    |eapply ids_after_skip; eassumption]).
    all: try (right; left; intros E; apply app_eq_nil in E; destruct E; discriminate).
    all: try (destruct stk as [|[] ?]; try discriminate Hchk; simpl in *;
              first [assumption | right; right; reflexivity]).
    destruct Hcov as [Hcov|[Hcov|Hcov]]; [left; exact Hcov|right; left; exact Hcov|].
    destruct ev; [right; right; exact Hcov|].
    destruct (ids_of end_listener _); [left; reflexivity|right; right; exact Hcov].
  - unfold end_listener in *.
    step_cases H; break_goal; facts; lists;
      repeat match goal with
             | E : take_listener _ _ = Some _ |- _ =>
                 pose proof (take_listener_count (fun l => end_action (snd l)) _ _ _ _ E);
                 revert E
             end; intros;
      repeat match goal with
             | E : exists _, _ |- _ => destruct E as [? E]; simpl in E
             end;
      try discriminate; try lia.
Qed.

Lemma resume_inv_run (cfg : config) (ins : list input) (s : state) :
  forallb plain_input ins = true -> run cfg ins init = Some s -> resume_inv cfg s.
Proof.
  intros Hp. apply (run_invariant_on cfg plain_input (resume_inv cfg)); [|exact Hp|].
  - intros i s0 s1 Hi (Hb & H0 & Hpl & Hfr & Htok & Hfin & Hfc & Hec) H.
    assert (Hp0 : 0 <= pending s0) by (destruct Hb as (Hb & _); lia).
    split; [exact (balance_inv_step cfg i s0 s1 Hb H)|].
    split; [exact (end0_inv_step cfg i s0 s1 H0 H)|].
    split; [exact (plain_inv_step cfg i s0 s1 Hi Hpl H)|].
    split; [exact (fresh_inv_step cfg i s0 s1 Hfr H)|].
    split; [exact (token_eq_step cfg i s0 s1 H0 Htok H)|].
    split; [exact (finalize_eq_step cfg i s0 s1 Hfin H)|].
    split; [exact (end_cover_step cfg i s0 s1 Hp0 Hpl Hfr Hfc H)|].
    exact (empty_cover_step cfg i s0 s1 Hpl Hfr Hec H).
  - unfold resume_inv, balance_inv, outstanding, end0_inv, plain_inv, fresh_inv,
      token_eq, finalize_eq, end_cover, empty_cover, begun. simpl.
    repeat split; try constructor; try reflexivity; try lia.
    + destruct (kind cfg); reflexivity.
    + destruct (kind cfg); [split; [reflexivity|left; reflexivity]|reflexivity].
Qed.

(** Whenever the stage is at rest with no work in flight and no error
    recorded, every call of [end] by the producer (without a trailing chunk)
    has begun the shutdown; in the sink every call of the finalize hook whose
    callback is not outstanding has led to a call of the host's [end()]. *)
Lemma ended_at_rest (cfg : config) (ins : list input) (s : state) :
  1 <= concurrency cfg ->
  forallb plain_input ins = true ->
  run cfg ins init = Some s ->
  stack s = [] -> inflight s = [] -> errorEmitted s = false ->
  count is_endcall (trace s) = begun cfg (trace s)
  /\ (kind cfg = Writable -> flushing s = O ->
      count is_flush (trace s) = count is_end0 (trace s)).
Proof.
  intros Hc Hp Hrun Hstk Hin He.
  destruct (resume_inv_run cfg ins s Hp Hrun)
    as ((Hbal & _) & _ & _ & _ & Htok & Hfin & Hfc & Hec).
  destruct (order_inv_run cfg ins s Hrun) as (_ & Hcnt & Hbuf).
  destruct (cover_inv_run cfg ins s Hrun) as (_ & _ & _ & Hwe & Hcov).
  unfold outstanding, token_eq, finalize_eq, end_cover, empty_cover, covered in *.
  rewrite Hstk, Hin in *. simpl in *. specialize (Htok He).
  assert (Hf0 : count end_listener (onFree s) = O).
  { rewrite <- ids_of_count.
    destruct Hfc as [Hfc|[Hfc|Hfc]]; [rewrite Hfc; reflexivity|lia|discriminate]. }
  assert (Hb0 : hbuffer s = []).
  { destruct (hwriting s); [|exact (Hbuf eq_refl)]. exfalso.
    assert (H1 : count write_listener (onFree s) = 1%nat) by lia.
    pose proof (write_ids_count (onFree s)) as Hl.
    destruct Hcov as [Hcov|[Hcov|Hcov]]; [|lia|discriminate].
    rewrite Hcov in Hl. simpl in Hl. lia. }
  assert (He0 : count end_listener (onEmpty s) = O).
  { destruct (kind cfg); [|exact Hec].
    destruct Hec as (_ & Hec). rewrite <- ids_of_count.
    destruct Hec as [Hec|[Hec|Hec]];
      [rewrite Hec; reflexivity|contradiction|discriminate]. }
  split; [lia|]. intros Hk Hfl. specialize (Hfin Hk He). lia.
Qed.

(** * Works and their chunks *)

Lemma combine_snoc {A B : Type} (l1 : list A) (l2 : list B) (a : A) (b : B) :
  length l1 = length l2 ->
  combine (l1 ++ [a]) (l2 ++ [b]) = combine l1 l2 ++ [(a, b)].
Proof.
  revert l2. induction l1 as [|x l1 IH]; intros [|y l2] H; simpl in *;
    try discriminate; [reflexivity|].
  rewrite IH by lia. reflexivity.
Qed.

Lemma works_inv_step (cfg : config) (i : input) (s s' : state) :
  works_inv s -> step cfg i s = Some s' -> works_inv s'.
Proof.
  unfold works_inv, works, dispatched. intros (Hw & Hl) H.
  step_cases H; break_goal; lists; rewrite ?app_nil_r;
    (split; [try assumption|try assumption; try lia]).
  all: match goal with
       | |- ?lhs = match ?l with [] => [] | y :: tl => (0%nat, y) :: combine (seq 1 ?n) tl end =>
           change (lhs = combine (seq 0 (S n)) l)
       end.
  all: rewrite Hw, seq_S, combine_snoc by (rewrite length_seq; lia); reflexivity.
Qed.

Lemma works_inv_run (cfg : config) (ins : list input) (s : state) :
  run cfg ins init = Some s -> works_inv s.
Proof.
  apply (run_invariant cfg works_inv).
  - apply works_inv_step.
  - split; reflexivity.
Qed.

Lemma nth_error_combine_seq {A : Type} (l : list A) (a k : nat) (x : A) :
  nth_error l k = Some x ->
  nth_error (combine (seq a (length l)) l) k = Some ((a + k)%nat, x).
Proof.
  revert a k. induction l as [|y l IH]; intros a [|k] H; simpl in *;
    try discriminate.
  - injection H as ->. rewrite Nat.add_0_r. reflexivity.
  - rewrite (IH (S a) k H). f_equal. f_equal. lia.
Qed.

Lemma nth_error_seq_start (a m k : nat) :
  (k < m)%nat -> nth_error (seq a m) k = Some (a + k)%nat.
Proof.
  revert a k. induction m as [|m IH]; intros a [|k] H; simpl; try lia.
  - rewrite Nat.add_0_r. reflexivity.
  - rewrite IH by lia. f_equal. lia.
Qed.

Lemma firstn_length_app {A : Type} (l1 l2 : list A) :
  firstn (length l1) (l1 ++ l2) = l1.
Proof. induction l1 as [|x l1 IH]; simpl; [reflexivity|rewrite IH; reflexivity]. Qed.

Lemma done_ids_count (t : list obs) : length (done_ids t) = count is_done t.
Proof.
  unfold done_ids. induction t as [|o t IH]; simpl; [reflexivity|].
  destruct o; simpl; rewrite ?IH; reflexivity.
Qed.

Lemma works_count (t : list obs) : length (works t) = count is_work t.
Proof.
  unfold works. induction t as [|o t IH]; simpl; [reflexivity|].
  destruct o; simpl; rewrite ?IH; reflexivity.
Qed.

Lemma dispatched_count (t : list obs) : length (dispatched t) = count is_work t.
Proof.
  unfold dispatched. induction t as [|o t IH]; simpl; [reflexivity|].
  destruct o; simpl; rewrite ?IH; reflexivity.
Qed.

(** * Admission

    At rest, a chunk that is accepted and not dispatched waits on ['free']
    with the pool full. *)
Lemma parked_at_rest (cfg : config) (ins : list input) (s : state) :
  0 <= concurrency cfg ->
  run cfg ins init = Some s ->
  stack s = [] ->
  (length (dispatched (trace s)) < length (inputs (trace s)))%nat ->
  pending s = concurrency cfg
  /\ Z.of_nat (length (inflight s)) = concurrency cfg
  /\ exists i chunk enc,
       In (i, ARetryWrite chunk enc) (onFree s)
       /\ nth_error (inputs (trace s)) (length (dispatched (trace s))) = Some chunk.
Proof.
  intros Hc Hrun Hstk Hlen.
  destruct (pending_inv_run cfg ins s Hc Hrun) as ((Hout & _) & Hle).
  destruct (order_inv_run cfg ins s Hrun) as (Hord & Hcnt & Hbuf).
  destruct (cover_inv_run cfg ins s Hrun) as (_ & _ & _ & He & Hcov).
  unfold outstanding, waiting in *. rewrite Hstk in *. simpl in *.
  rewrite (count_zero_collect write_listener listener_chunk (onEmpty s)
             listener_chunk_none He), app_nil_r in Hord.
  assert (Hw : hwriting s = true).
  { destruct (hwriting s); [reflexivity|]. exfalso.
    rewrite (Hbuf eq_refl), app_nil_r in Hord.
    rewrite (count_zero_collect write_listener listener_chunk (onFree s)
               listener_chunk_none), app_nil_r in Hord by lia.
    rewrite Hord in Hlen. lia. }
  rewrite Hw in Hcnt.
  assert (H1 : count write_listener (onFree s) = 1%nat) by lia.
  assert (Hfull : concurrency cfg <= pending s).
  { destruct Hcov as [Hcov|[Hcov|Hcov]]; [|exact Hcov|discriminate Hcov].
    pose proof (write_ids_count (onFree s)) as Hl. rewrite Hcov in Hl.
    simpl in Hl. lia. }
  split; [lia|]. split; [lia|].
  destruct (single_write_listener (onFree s) H1) as (i & chunk & enc & Hin & Hcol).
  exists i, chunk, enc. split; [exact Hin|].
  rewrite Hord, Hcol, nth_error_app2, Nat.sub_diag by lia. reflexivity.
Qed.

(** A completion retries the write that waits on ['free'] and dispatches
    its chunk. *)
Lemma completion_retries_write (cfg : config) (s : state)
    (id i : nat) (rest : list nat) (chunk enc err data : jsval) :
  stack s = [] ->
  take_id id (inflight s) = Some rest ->
  onFree s = [(i, ARetryWrite chunk enc)] ->
  pending s <= concurrency cfg ->
  exists s' k,
    run cfg [Complete id err data; Tau; Tau; Tau; Tau] s = Some s'
    /\ stack s' = KWork (nextWork s) chunk enc :: k
    /\ pending s' = pending s
    /\ onFree s' = []
    /\ inflight s' = rest
    /\ dispatched (trace s') = dispatched (trace s) ++ [chunk].
Proof.
  intros Hstk Htake Hfree Hle.
  destruct s as [p ee oF oE oFin nL hb hw he hf infl nW fl stk tr]. simpl in Hstk, Htake, Hfree, Hle. subst.
  assert (E : (p - 1 >=? concurrency cfg) = false).
  { rewrite Z.geb_leb. apply Z.leb_gt. lia. }
  destruct cfg as [[|] hook c]; simpl in E.
  - eexists. eexists. split.
    { next ltac:(rewrite Htake). next idtac. next idtac.
      next ltac:(rewrite Nat.eqb_refl). next ltac:(rewrite E). reflexivity. }
    simpl. unfold dispatched. lists. rewrite ?app_nil_r.
    repeat split; (reflexivity || lia).
  - destruct (truthy err) eqn:Eerr; [destruct ee|destruct (truthy data) eqn:Edata].
    all: eexists; eexists; split;
      [ next ltac:(rewrite Htake); next ltac:(rewrite ?Eerr, ?Edata); next idtac;
        next ltac:(rewrite Nat.eqb_refl); next ltac:(rewrite E); reflexivity
      | simpl; unfold dispatched; lists; rewrite ?app_nil_r;
        repeat split; (reflexivity || lia) ].
Qed.

(** A write to a stage at rest with a free slot is dispatched at once. *)
Lemma write_dispatches_at_once (cfg : config) (s : state) (chunk enc : jsval) :
  stack s = [] -> hwriting s = false -> hending s = false ->
  pending s < concurrency cfg ->
  exists s' k,
    run cfg [UserWrite chunk enc; Tau; Tau] s = Some s'
    /\ stack s' = KWork (nextWork s) chunk enc :: k
    /\ pending s' = pending s + 1
    /\ dispatched (trace s') = dispatched (trace s) ++ [chunk].
Proof.
  intros Hstk Hw He Hlt.
  destruct s as [p ee oF oE oFin nL hb hw he hf infl nW fl stk tr].
  simpl in Hstk, Hw, He, Hlt. subst.
  assert (E : (p >=? concurrency cfg) = false).
  { rewrite Z.geb_leb. apply Z.leb_gt. lia. }
  destruct cfg as [[|] hook c]; simpl in E.
  all: eexists; eexists; split;
    [ next idtac; next idtac; next ltac:(rewrite E); reflexivity
    | simpl; unfold dispatched; lists; rewrite ?app_nil_r;
      repeat split; reflexivity ].
Qed.

Lemma run_app (cfg : config) (ins ins' : list input) (s s' s'' : state) :
  run cfg ins s = Some s' -> run cfg ins' s' = Some s'' ->
  run cfg (ins ++ ins') s = Some s''.
Proof.
  revert s. induction ins as [|i ins IH]; simpl; intros s H H'.
  - injection H as <-. exact H'.
  - destruct (step cfg i s) as [s1|]; [|discriminate]. exact (IH s1 H H').
Qed.

(** * Properties of the specification *)

(** C1. In both variants, for a limit [c >= 1], every state of every run has
    [0 <= pending <= c]; [pending] is the number of chunks dispatched whose
    callback has not fired, and the balance of the dispatches and the
    completions observed; every dispatch has a number of its own and at most
    one completion; a step increments [pending] only when [_write] /
    [_transform] passes the limit check, where it dispatches one chunk, and
    decrements it only, and by one, when a work callback fires. *)
Theorem pending_bounded (cfg : config) (ins : list input) (s : state) :
  1 <= concurrency cfg ->
  run cfg ins init = Some s ->
  0 <= pending s <= concurrency cfg
  /\ pending s = Z.of_nat (outstanding s)
  /\ pending s = Z.of_nat (count is_work (trace s)) - Z.of_nat (count is_done (trace s))
  /\ (forall id, (count (done_id id) (trace s) <= count (work_id id) (trace s) <= 1)%nat)
  /\ forall i s', step cfg i s = Some s' ->
       match stack s with
       | KWrite _ _ :: _ =>
           if pending s >=? concurrency cfg
           then pending s' = pending s
                /\ count is_work (trace s') = count is_work (trace s)
           else pending s' = pending s + 1
                /\ count is_work (trace s') = S (count is_work (trace s))
       | KDone _ _ _ :: _ =>
           pending s' = pending s - 1
           /\ count is_done (trace s') = S (count is_done (trace s))
       | _ =>
           pending s' = pending s
           /\ count is_work (trace s') = count is_work (trace s)
           /\ count is_done (trace s') = count is_done (trace s)
       end.
Proof.
  intros Hc Hrun.
  destruct (pending_inv_run cfg ins s ltac:(lia) Hrun) as ((Heq & Hbal) & Hle).
  pose proof (ids_inv_run cfg ins s Hrun) as Hids.
  split; [lia|]. split; [exact Heq|]. split; [lia|]. split.
  { intros id. destruct (Hids id) as (Hocc & Hwork).
    destruct (Nat.ltb id (nextWork s)); lia. }
  intros i s' H. clear Hrun Heq Hbal Hle Hids.
  step_cases H; break_goal; lists; repeat split; try reflexivity; try lia.
Qed.

(** The bound on the run of a sink of limit 2 over three chunks. *)
Lemma pending_bounded_witness :
  run sink2 sink_run init = Some sink_run_final
  /\ 0 <= pending sink_run_final <= 2.
Proof.
  split; [reflexivity|].
  destruct (pending_bounded sink2 sink_run sink_run_final
              ltac:(simpl; lia) eq_refl) as (Hb & _).
  exact Hb.
Defined.

(** C2. The sink's work callback emits ['free'] before it calls [fail]
    (lines 62-64), so a completion that is nested in that [emit] reaches
    [fail] first.  A sink of limit 1 is given two chunks; the work on the
    first reports [boom]; the ['free'] of that completion dispatches the
    second chunk, whose work reports [bang] before it returns.  The
    failures are reported in the order [boom], [bang], and the one
    notification delivered is [bang]: the first failure is the one
    suppressed.  The transform's callback calls [fail] before it emits
    ['free'] (lines 166-168) and delivers [boom] on the same input. *)
Theorem sink_delivers_later_failure :
  run sink1 nested_failures init = Some nested_failures_final
  /\ trace nested_failures_final
     = [OInput chunk_a; OWork 0 chunk_a; OInput chunk_b; ODone 0 boom VUndefined;
        OWork 1 chunk_b; ODone 1 bang VUndefined; OError bang]
  /\ failures (trace nested_failures_final) = [boom; bang]
  /\ errors (trace nested_failures_final) = [bang]
  /\ errors (trace nested_failures_final)
     <> firstn 1 (failures (trace nested_failures_final))
  /\ run xform1 xform_nested_failures init = Some xform_nested_failures_final
  /\ failures (trace xform_nested_failures_final) = [boom; bang]
  /\ errors (trace xform_nested_failures_final) = [boom].
Proof. repeat split; try reflexivity. discriminate. Qed.

(** C3, as stated, fails: a sink at rest that is ended twice invokes the
    finalize hook twice, the second time after the host's [end()] and after
    completion has been signalled. *)
Lemma finalize_invoked_twice :
  run sink1 end_twice init = Some end_twice_final
  /\ trace end_twice_final
     = [OEndCall; OFlush; OEnd0; OFinish; OEndCall; OFlush; OEnd0]
  /\ count is_flush (trace end_twice_final) = 2%nat
  /\ spec_finalize_once (trace end_twice_final) = false.
Proof. repeat split; reflexivity. Qed.

(** C3. In the sink, a call of [end] with chunks still in the host's buffer
    only registers its retry on ['empty']; with the buffer empty and chunks
    in flight it only registers its retry on ['free']; otherwise, with no
    error recorded, it goes on to the finalize hook.  At every instant of
    every run, a step that invokes the hook starts from a state with an
    empty buffer, no chunk in flight and no error recorded; the hook is
    invoked at most once per call of [end] by the producer, and the host's
    [end()] is reached only through the hook's callback.  The deferred calls
    are resumed: for a limit of at least 1, whenever the sink is at rest
    with no work in flight and no error recorded, every call of [end] by the producer (without a trailing
    chunk) has invoked the hook, once each, and every hook call whose
    callback is not outstanding has led to the host's [end()].  Completion
    is signalled only after the host's [end()]. *)
Theorem finalize_after_drain (cfg : config) (ins : list input) (s : state) :
  kind cfg = Writable ->
  run cfg ins init = Some s ->
  (forall chunk enc cb k, internal s <> [] ->
     writable_end chunk enc cb k s
     = with_stack k (once Empty (ARetryEnd chunk enc cb) s))
  /\ (forall chunk enc cb k, internal s = [] -> pending s <> 0 ->
        writable_end chunk enc cb k s
        = with_stack k (once Free (ARetryEnd chunk enc cb) s))
  /\ (forall cb k, internal s = [] -> pending s = 0 -> errorEmitted s = false ->
        writable_end VUndefined VUndefined cb k s
        = with_stack (KFlush :: k) (on_finish cb s))
  /\ (forall i s', step cfg i s = Some s' ->
        count is_flush (trace s') <> count is_flush (trace s) ->
        count is_flush (trace s') = S (count is_flush (trace s))
        /\ internal s = [] /\ pending s = 0 /\ inflight s = []
        /\ errorEmitted s = false)
  /\ (count is_flush (trace s) <= count is_endcall (trace s))%nat
  /\ (count is_end0 (trace s) <= count is_flush (trace s))%nat
  /\ (count is_finish (trace s) <= 1)%nat
  /\ (count is_finish (trace s) <= count is_end0 (trace s))%nat
  /\ (1 <= concurrency cfg -> forallb plain_input ins = true ->
      stack s = [] -> inflight s = [] -> errorEmitted s = false ->
      count is_flush (trace s) = count is_endcall (trace s)
      /\ (flushing s = O -> count is_end0 (trace s) = count is_flush (trace s))).
Proof.
  intros Hk Hrun.
  pose proof (flush_inv_run cfg ins s Hrun) as Hflush.
  pose proof (token_inv_run cfg ins s Hrun) as Htok.
  pose proof (finalize_inv_run cfg ins s Hrun Hk) as Hfin.
  pose proof (host_inv_run cfg ins s Hrun) as (Hfe & He0 & Hcnt).
  pose proof (no_outstanding s (balance_inv_run cfg ins s Hrun)) as Hout.
  split; [|split; [|split; [|split; [|split; [|split; [|split; [|split]]]]]]].
  - intros chunk enc cb k Hb. unfold writable_end.
    destruct (internal s); [contradiction|reflexivity].
  - intros chunk enc cb k Hb Hp0. unfold writable_end. rewrite Hb.
    destruct (pending s =? 0) eqn:E; [|reflexivity].
    apply Z.eqb_eq in E. contradiction.
  - intros cb k Hb Hp0 He. unfold writable_end. rewrite Hb, Hp0, He. reflexivity.
  - intros i s' H Hne. clear Hrun Htok Hfin Hfe He0 Hcnt.
    unfold flush_inv in Hflush.
    revert Hne. step_cases H; break_goal; lists; intros Hne;
      try (exfalso; apply Hne; lia);
      destruct Hflush as (Hb & Hp0 & He & _);
      destruct (Hout Hp0) as (Hi & _);
      repeat split; (assumption || lia).
  - unfold token_inv in Htok. lia.
  - unfold finalize_inv in Hfin. lia.
  - destruct (hfinished s); lia.
  - destruct (hfinished s); [|lia].
    specialize (He0 (Hfe eq_refl)). lia.
  - intros Hc Hp Hstk Hin He.
    destruct (ended_at_rest cfg ins s Hc Hp Hrun Hstk Hin He) as (Hall & Hend).
    unfold begun in Hall. rewrite Hk in Hall.
    split; [symmetry; exact Hall|].
    intros Hfl. symmetry. exact (Hend Hk Hfl).
Qed.

(** On the sample sink run the one call of [end] has invoked the hook once,
    and the host's [end()] has followed. *)
Lemma finalize_after_drain_witness :
  run sink2 sink_run init = Some sink_run_final
  /\ count is_flush (trace sink_run_final) = count is_endcall (trace sink_run_final)
  /\ count is_end0 (trace sink_run_final) = count is_flush (trace sink_run_final)
  /\ count is_flush (trace sink_run_final) = 1%nat.
Proof.
  split; [reflexivity|].
  destruct (finalize_after_drain sink2 sink_run sink_run_final eq_refl eq_refl)
    as (_ & _ & _ & _ & _ & _ & _ & _ & Hlive).
  destruct (Hlive ltac:(simpl; lia) eq_refl eq_refl eq_refl eq_refl) as (Hall & Hend).
  split; [exact Hall|]. split; [exact (Hend eq_refl)|reflexivity].
Defined.

(** C4, as stated, fails: the transform's [end] does not wait for what the
    host still buffers, so the host's [end()] can be invoked, and completion
    signalled, while a chunk is yet to be dispatched; when the work on that
    chunk reports a failure afterwards, the error notification follows the
    completion. *)
Lemma transform_finish_then_error :
  run xform1 xform_late_fails init = Some xform_late_fails_final
  /\ trace xform_late_fails_final
     = [OInput chunk_a; OWork 0 chunk_a; OInput chunk_b; OInput chunk_c; OEndCall;
        ODone 0 VUndefined VUndefined; OWork 1 chunk_b; ODone 1 VUndefined VUndefined;
        OEnd0; OWork 2 chunk_c; OFinish; ODone 2 boom VUndefined; OError boom]
  /\ spec_single_outcome (trace xform_late_fails_final) = false.
Proof. repeat split; reflexivity. Qed.

(** C4. In both variants at most one error notification and at most one
    completion are delivered, and completion only after the stage has
    invoked the host's [end()].  Once an error is recorded the stage does
    not begin its shutdown any more: in the transform, and in the sink when
    no call of the finalize hook or of the host's [end()] is under way, no
    continuation invokes the hook or the host's [end()], so no completion
    follows the error unless the host was ending already. *)
Theorem no_shutdown_after_error (cfg : config) (ins ins' : list input) (s s' : state) :
  run cfg ins init = Some s ->
  run cfg ins' s = Some s' ->
  (length (errors (trace s')) <= 1)%nat
  /\ (count is_finish (trace s') <= 1)%nat
  /\ (count is_finish (trace s') <= count is_end0 (trace s'))%nat
  /\ (errorEmitted s = true -> flushing s = O -> count shutdown_frame (stack s) = O ->
      count is_flush (trace s') = count is_flush (trace s)
      /\ count is_end0 (trace s') = count is_end0 (trace s)
      /\ (hending s = false -> count is_finish (trace s') = O))
  /\ (kind cfg = Transform -> errorEmitted s = true ->
      count is_end0 (trace s') = count is_end0 (trace s)
      /\ (hending s = false -> count is_finish (trace s') = O)).
Proof.
  intros Hrun Hrun'.
  pose proof (run_app cfg ins ins' init s s' Hrun Hrun') as Hall.
  pose proof (error_inv_run cfg _ s' Hall) as Herr.
  pose proof (host_inv_run cfg _ s' Hall) as (Hfe' & He0' & Hcnt').
  pose proof (host_inv_run cfg ins s Hrun) as (Hfe & _ & Hcnt).
  assert (Hnone : hending s = false -> count is_finish (trace s) = O).
  { intros Hh. destruct (hfinished s); [|exact Hcnt].
    specialize (Hfe eq_refl). congruence. }
  unfold error_inv in Herr.
  split; [destruct (errorEmitted s'); lia|].
  split; [destruct (hfinished s'); lia|].
  split.
  { destruct (hfinished s'); [|lia]. specialize (He0' (Hfe' eq_refl)). lia. }
  split.
  - intros He Hfl Hsh.
    destruct (blocked_run cfg ins' s s' (conj He (conj Hfl Hsh)) Hrun')
      as (_ & Hf & H0 & _ & _ & Hfin).
    split; [exact Hf|]. split; [exact H0|].
    intros Hh. rewrite (Hfin Hh). exact (Hnone Hh).
  - intros Hk He.
    destruct (error_end0_inv_run cfg ins s Hrun) as (Hend & Hno).
    destruct (Hend Hk) as (Hfl & Hfr & _). specialize (Hno Hk He).
    assert (Hb : blocked s).
    { unfold blocked. split; [exact He|]. split; [exact Hfl|].
      clear - Hfr Hno. induction (stack s) as [|f k IH]; simpl in *; [reflexivity|].
      destruct f; simpl in *; try discriminate; apply IH; assumption. }
    destruct (blocked_run cfg ins' s s' Hb Hrun') as (_ & _ & H0 & _ & _ & Hfin).
    split; [exact H0|].
    intros Hh. rewrite (Hfin Hh). exact (Hnone Hh).
Qed.

(** A sink that has recorded an error is ended while work is in flight; the
    work completes, and neither the hook nor the host's [end()] is invoked. *)
Lemma no_shutdown_after_error_witness :
  run sink1 sink_write_after_error init = Some sink_write_after_error_final
  /\ run sink1 sink_end_after_error sink_write_after_error_final
     = Some sink_end_after_error_final
  /\ count is_flush (trace sink_end_after_error_final) = O
  /\ count is_end0 (trace sink_end_after_error_final) = O
  /\ count is_finish (trace sink_end_after_error_final) = O.
Proof.
  split; [reflexivity|]. split; [reflexivity|].
  destruct (no_shutdown_after_error sink1 sink_write_after_error sink_end_after_error
              sink_write_after_error_final sink_end_after_error_final
              eq_refl eq_refl) as (_ & _ & _ & Hb & _).
  destruct (Hb eq_refl eq_refl eq_refl) as (Hf & H0 & Hfin).
  split; [exact Hf|]. split; [exact H0|exact (Hfin eq_refl)].
Defined.

(** C5, as stated, fails: a transform whose work completes without an error
    and yields the number 0 emits nothing, and a transform whose second work
    completes with an output after the first has failed still emits that
    output; in both runs the emitted sequence differs from the one the
    specification describes. *)
Lemma spec_emitted_refuted :
  (run xform1 xform_zero init = Some xform_zero_final
   /\ pushes (trace xform_zero_final) = []
   /\ spec_emitted (trace xform_zero_final) = [VNum 0]
   /\ pushes (trace xform_zero_final) <> spec_emitted (trace xform_zero_final))
  /\ (run xform1 xform_after_error init = Some xform_after_error_final
      /\ pushes (trace xform_after_error_final) = [out_x]
      /\ spec_emitted (trace xform_after_error_final) = []
      /\ pushes (trace xform_after_error_final)
         <> spec_emitted (trace xform_after_error_final)).
Proof.
  split; (split; [reflexivity | split; [reflexivity | split; [reflexivity | discriminate]]]).
Qed.

(** C5, amended.  In the transform, at every instant the emitted sequence is
    exactly the sequence of truthy outputs of the completions that carry no
    (truthy) error, in completion order, whether or not an error was
    recorded before; a work callback emits its output in the very step in
    which it fires, and a completion that reports an error emits nothing
    even if it supplies a value. *)
Theorem transform_emits_truthy_outputs (cfg : config) (ins : list input) (s : state) :
  kind cfg = Transform ->
  run cfg ins init = Some s ->
  pushes (trace s) = outputs (trace s)
  /\ forall id err data k,
       trace (transform_done id err data k s)
       = trace s ++ ODone id err data ::
           (if truthy err then (if errorEmitted s then [] else [OError err])
            else if truthy data then [OPush data] else []).
Proof.
  intros Hk Hrun. pose proof (push_inv_run cfg ins s Hrun) as Hinv.
  unfold push_inv in Hinv. rewrite Hk in Hinv. split; [exact Hinv|].
  intros id err data k. destruct s; unfold_ops; simpl.
  destruct (truthy err); [destruct errorEmitted0|destruct (truthy data)]; simpl;
    rewrite <- ?app_assoc; reflexivity.
Qed.

(** Both outputs of the sample transform run, in completion order. *)
Lemma transform_emits_truthy_outputs_witness :
  run xform1 xform_run init = Some xform_run_final
  /\ pushes (trace xform_run_final) = outputs (trace xform_run_final)
  /\ pushes (trace xform_run_final) = [out_x; chunk_b].
Proof.
  split; [reflexivity|].
  destruct (transform_emits_truthy_outputs xform1 xform_run xform_run_final
              eq_refl eq_refl) as (Hp & _).
  split; [exact Hp | reflexivity].
Defined.

(** C6, as stated, fails in both variants: a chunk written after the error
    notification has been delivered is dispatched to the work function all
    the same. *)
Lemma admission_after_error :
  (run sink1 sink_write_after_error init = Some sink_write_after_error_final
   /\ trace sink_write_after_error_final
      = [OInput chunk_a; OWork 0 chunk_a; ODone 0 boom VUndefined; OError boom;
         OInput chunk_b; OWork 1 chunk_b]
   /\ spec_no_admission_after_error (trace sink_write_after_error_final) = false)
  /\ (run xform1 xform_write_after_error init = Some xform_write_after_error_final
      /\ trace xform_write_after_error_final
         = [OInput chunk_a; OWork 0 chunk_a; ODone 0 boom VUndefined; OError boom;
            OInput chunk_b; OWork 1 chunk_b]
      /\ spec_no_admission_after_error (trace xform_write_after_error_final) = false).
Proof. repeat split; reflexivity. Qed.

(** C6, amended.  In both variants, recording an error cancels nothing: it
    leaves the counter, the work in flight and the call stack as they are,
    and with an error recorded every work in flight can still fire its
    callback.  From a state with an error recorded no step invokes the
    finalize hook.  Admission does not look at the error: [_write] /
    [_transform] does with an error recorded what it does without. *)
Theorem after_error_drains (cfg : config) (ins : list input) (s : state) :
  run cfg ins init = Some s ->
  (forall err,
     pending (fail err s) = pending s /\ inflight (fail err s) = inflight s
     /\ stack (fail err s) = stack s /\ errorEmitted (fail err s) = true)
  /\ (errorEmitted s = true -> stack s = [] ->
      forall id err data, In id (inflight s) ->
      exists s', step cfg (Complete id err data) s = Some s'
                 /\ stack s' = [KDone id err data])
  /\ (errorEmitted s = true ->
      forall i s', step cfg i s = Some s' ->
      count is_flush (trace s') = count is_flush (trace s))
  /\ (forall chunk enc k b,
       _write cfg chunk enc k (with_errorEmitted b s)
       = with_errorEmitted b (_write cfg chunk enc k s)
       /\ _transform cfg chunk enc k (with_errorEmitted b s)
          = with_errorEmitted b (_transform cfg chunk enc k s)).
Proof.
  intros Hrun. pose proof (flush_inv_run cfg ins s Hrun) as Hflush.
  split; [|split; [|split]].
  - intros err. unfold fail. destruct s; simpl.
    destruct errorEmitted0; simpl; repeat split; reflexivity.
  - intros He Hs id err data Hin. unfold step, arrive. rewrite Hs.
    destruct (take_id id (inflight s)) as [rest|] eqn:E.
    + eexists. split; reflexivity.
    + exfalso. clear - Hin E. induction (inflight s) as [|x l IH]; simpl in *.
      * contradiction.
      * destruct (Nat.eqb id x) eqn:Ex; [discriminate|].
        destruct (take_id id l); [discriminate|].
        destruct Hin as [->|Hin]; [|auto].
        rewrite Nat.eqb_refl in Ex. discriminate.
  - intros He i s' H. clear Hrun. unfold flush_inv in Hflush.
    step_cases H; break_goal; lists; try lia;
      destruct Hflush as (_ & _ & Hf & _); congruence.
  - intros chunk enc k b. destruct s; unfold_ops; simpl.
    break_goal; split; reflexivity.
Qed.

(** The work dispatched after the failure stays in flight. *)
Lemma after_error_drains_witness :
  run sink1 sink_write_after_error init = Some sink_write_after_error_final
  /\ errorEmitted sink_write_after_error_final = true
  /\ inflight (fail boom sink_write_after_error_final) = [1%nat].
Proof.
  split; [reflexivity|]. split; [reflexivity|].
  destruct (after_error_drains sink1 sink_write_after_error
              sink_write_after_error_final eq_refl) as (Hf & _).
  destruct (Hf boom) as (_ & Hi & _).
  rewrite Hi. reflexivity.
Defined.




(** C8. In both variants, at every instant the chunks accepted by the host,
    in input order, are the chunks dispatched so far, in dispatch order,
    followed by the at most one chunk waiting for a free slot and then the
    host's buffer: the n-th chunk handed to the work function is the n-th
    chunk of the input, whatever the order of the completions.  Chunks are
    dispatched, and in that order: a write to a stage at rest with a free
    slot invokes the work function on the chunk at once; for a limit of at
    least 1, at rest, a chunk that is accepted and not dispatched means that
    the pool is full and that the next chunk of the input waits on ['free'];
    and the completion of a work then dispatches that chunk in the same
    turn. *)
Theorem admission_in_input_order (cfg : config) (ins : list input) (s : state) :
  run cfg ins init = Some s ->
  inputs (trace s) = dispatched (trace s) ++ waiting s ++ map fst (hbuffer s)
  /\ (length (waiting s) <= 1)%nat
  /\ (forall n chunk,
        nth_error (dispatched (trace s)) n = Some chunk ->
        nth_error (inputs (trace s)) n = Some chunk)
  /\ (forall chunk enc,
        stack s = [] -> hwriting s = false -> hending s = false ->
        pending s < concurrency cfg ->
        exists s' k,
          run cfg [UserWrite chunk enc; Tau; Tau] s = Some s'
          /\ stack s' = KWork (nextWork s) chunk enc :: k
          /\ dispatched (trace s') = dispatched (trace s) ++ [chunk])
  /\ (1 <= concurrency cfg -> stack s = [] ->
      (length (dispatched (trace s)) < length (inputs (trace s)))%nat ->
      pending s = concurrency cfg
      /\ exists i chunk enc,
           In (i, ARetryWrite chunk enc) (onFree s)
           /\ nth_error (inputs (trace s)) (length (dispatched (trace s)))
              = Some chunk)
  /\ (forall id rest i chunk enc err data,
        1 <= concurrency cfg ->
        stack s = [] -> take_id id (inflight s) = Some rest ->
        onFree s = [(i, ARetryWrite chunk enc)] ->
        exists s' k,
          run cfg [Complete id err data; Tau; Tau; Tau; Tau] s = Some s'
          /\ stack s' = KWork (nextWork s) chunk enc :: k
          /\ dispatched (trace s') = dispatched (trace s) ++ [chunk]).
Proof.
  intros Hrun. destruct (order_inv_run cfg ins s Hrun) as (Hord & Hcnt & _).
  split; [exact Hord|]. split; [|split; [|split; [|split]]].
  - unfold waiting. rewrite !length_app.
    pose proof (collect_length_count write_frame frame_chunk (stack s) frame_chunk_none).
    pose proof (collect_length_count write_listener listener_chunk (onFree s)
                  listener_chunk_none).
    pose proof (collect_length_count write_listener listener_chunk (onEmpty s)
                  listener_chunk_none).
    destruct (hwriting s); lia.
  - intros n chunk Hn. rewrite Hord. apply nth_error_prefix. exact Hn.
  - intros chunk enc Hstk Hw He Hlt.
    destruct (write_dispatches_at_once cfg s chunk enc Hstk Hw He Hlt)
      as (s' & k & H1 & H2 & _ & H3).
    exists s', k. split; [exact H1|]. split; [exact H2|exact H3].
  - intros Hc Hstk Hlen.
    destruct (parked_at_rest cfg ins s ltac:(lia) Hrun Hstk Hlen) as (Hp & _ & Hw).
    split; [exact Hp|exact Hw].
  - intros id rest i chunk enc err data Hc Hstk Htake Hfree.
    destruct (pending_inv_run cfg ins s ltac:(lia) Hrun) as (_ & Hle).
    destruct (completion_retries_write cfg s id i rest chunk enc err data
                Hstk Htake Hfree Hle) as (s' & k & H1 & H2 & _ & _ & _ & H3).
    exists s', k. split; [exact H1|]. split; [exact H2|exact H3].
Qed.

(** A transform of limit 1 holds a second chunk while the first is in
    flight: the pool is full, and the completion dispatches the second
    chunk. *)
Lemma admission_in_input_order_witness :
  run xform1 waiting_run init = Some waiting_final
  /\ pending waiting_final = 1
  /\ exists s' k,
       run xform1 [Complete 0 VUndefined out_x; Tau; Tau; Tau; Tau] waiting_final
       = Some s'
       /\ stack s' = KWork 1 chunk_b VUndefined :: k
       /\ dispatched (trace s') = [chunk_a; chunk_b].
Proof.
  split; [reflexivity|].
  destruct (admission_in_input_order xform1 waiting_run waiting_final eq_refl)
    as (_ & _ & _ & _ & Hfull & Hnext).
  destruct (Hfull ltac:(simpl; lia) eq_refl ltac:(simpl; lia)) as (Hp & _).
  split; [exact Hp|].
  exact (Hnext 0%nat [] 0%nat chunk_b VUndefined VUndefined out_x
           ltac:(simpl; lia) eq_refl eq_refl eq_refl).
Defined.

Lemma step_hook_default (f : jsval) (n : Z) (i : input) (s : state) :
  immediate i = true ->
  step (Config Writable (HookUser f) n) i s = step (Config Writable HookDefault n) i s.
Proof.
  intros Hi. unfold step. destruct (stack s) as [|fr k]; [reflexivity|].
  destruct fr; destruct i; try reflexivity; simpl in *;
    try discriminate; destruct err; (reflexivity || discriminate).
Qed.

Lemma run_hook_default (f : jsval) (n : Z) (ins : list input) (s : state) :
  forallb immediate ins = true ->
  run (Config Writable (HookUser f) n) ins s = run (Config Writable HookDefault n) ins s.
Proof.
  revert s. induction ins as [|i ins IH]; simpl; intros s Hall; [reflexivity|].
  apply andb_true_iff in Hall. destruct Hall as [Hi Hall].
  rewrite (step_hook_default f n i s Hi).
  destruct (step (Config Writable HookDefault n) i s); [apply IH; exact Hall|reflexivity].
Qed.

(** C9. Called with an object as its second argument, the sink constructor
    takes that object as the options, whatever the third argument, and
    installs the default finalize hook.  The stage it builds has the options
    and the limit of the stage built from a user hook and the same options,
    and runs exactly like it whenever the user hook behaves as the default
    one does: it completes at once and without an error. *)
Theorem options_as_second_argument
        (props : list (string * jsval)) (third : jsval) (f : nat)
        (ins : list input) (s : state) :
  forallb immediate ins = true ->
  writable (VObj props) third
  = Ctor Writable HookDefault (VObj props)
      (js_or (get_prop (VObj props) "concurrency") (VNum 1))
  /\ writable (VFun f) (VObj props)
     = Ctor Writable (HookUser (VFun f)) (VObj props)
         (js_or (get_prop (VObj props) "concurrency") (VNum 1))
  /\ (stage_of (writable (VObj props) third) = None
      <-> stage_of (writable (VFun f) (VObj props)) = None)
  /\ (forall c1 c2,
        stage_of (writable (VObj props) third) = Some c1 ->
        stage_of (writable (VFun f) (VObj props)) = Some c2 ->
        run c1 ins s = run c2 ins s).
Proof.
  intros Hall. split; [reflexivity|]. split; [reflexivity|].
  unfold stage_of, writable. simpl.
  destruct (js_or _ (VNum 1)); (split; [split; intros H; (exact H || discriminate H)|]);
    intros c1 c2 H1 H2; try discriminate H1.
  injection H1 as <-. injection H2 as <-.
  symmetry. apply run_hook_default. exact Hall.
Qed.

(** The sample sink run under a user hook that succeeds at once. *)
Lemma options_as_second_argument_witness :
  forallb immediate sink_run = true
  /\ run (Config Writable (HookUser (VFun 7)) 2) sink_run init = Some sink_run_final.
Proof.
  split; [reflexivity|].
  destruct (options_as_second_argument [("concurrency"%string, VNum 2)] VUndefined 7
              sink_run init eq_refl) as (_ & _ & _ & Hrun).
  rewrite <- (Hrun sink2 (Config Writable (HookUser (VFun 7)) 2) eq_refl eq_refl).
  reflexivity.
Defined.

(** C10. Whenever the [concurrency] option is missing or falsy (the options
    are missing altogether, the property is absent, or its value is 0, NaN,
    null, false or the empty string), both constructors set the limit to
    exactly 1: the transform, the sink given its options third, and the sink
    given them second. *)
Theorem default_concurrency (options : jsval) :
  truthy (get_prop (js_or options (VObj [])) "concurrency") = false ->
  (c_concurrency (transform options) = VNum 1
   /\ option_map concurrency (stage_of (transform options)) = Some 1)
  /\ (forall flush, typeof_object flush = false ->
      c_concurrency (writable flush options) = VNum 1
      /\ option_map concurrency (stage_of (writable flush options)) = Some 1)
  /\ (typeof_object options = true -> forall third,
      c_concurrency (writable options third) = VNum 1
      /\ option_map concurrency (stage_of (writable options third)) = Some 1).
Proof.
  intros Hf. split; [|split].
  - unfold stage_of, transform. simpl. unfold js_or at 1 3. rewrite Hf.
    split; reflexivity.
  - intros flush Hobj. unfold stage_of, writable. rewrite Hobj. simpl.
    unfold js_or at 1 3. rewrite Hf. split; reflexivity.
  - intros Hobj third. unfold stage_of, writable. rewrite Hobj. simpl.
    unfold js_or at 1 3. rewrite Hf. split; reflexivity.
Qed.

(** [concurrency: 0] gives the limit 1. *)
Lemma default_concurrency_witness :
  truthy (get_prop (js_or (VObj [("concurrency"%string, VNum 0)]) (VObj [])) "concurrency")
  = false
  /\ c_concurrency (transform (VObj [("concurrency"%string, VNum 0)])) = VNum 1
  /\ c_concurrency (writable (VObj [("concurrency"%string, VNum 0)]) VUndefined) = VNum 1.
Proof.
  split; [reflexivity|].
  destruct (default_concurrency (VObj [("concurrency"%string, VNum 0)]) eq_refl)
    as ((Ht & _) & _ & Hw).
  split; [exact Ht|]. exact (proj1 (Hw eq_refl VUndefined)).
Defined.

(** * Further properties of the code *)

(** X1. A limit that is not positive admits nothing: [pending >= concurrency]
    holds from the start, so every chunk handed to [_write] / [_transform]
    waits on ['free'], no work is ever invoked, and every accepted chunk is
    still waiting or in the host's buffer. *)
Theorem nonpositive_limit_admits_nothing (cfg : config) (ins : list input) (s : state) :
  concurrency cfg <= 0 ->
  run cfg ins init = Some s ->
  dispatched (trace s) = [] /\ pending s = 0
  /\ inputs (trace s) = waiting s ++ map fst (hbuffer s).
Proof.
  intros Hc Hrun.
  assert (Hinv : starved_inv s).
  { revert Hrun. apply (run_invariant cfg starved_inv).
    - intros i s0 s1. apply starved_inv_step. exact Hc.
    - unfold starved_inv. simpl. repeat split; reflexivity. }
  destruct Hinv as (Hp & Hw & _ & _).
  destruct (order_inv_run cfg ins s Hrun) as (Hord & _).
  assert (Hd : dispatched (trace s) = []).
  { unfold dispatched. apply (count_zero_collect is_work); [|exact Hw].
    intros o Ho. destruct o; simpl in *; (discriminate || reflexivity). }
  rewrite Hd in Hord. split; [exact Hd|]. split; [exact Hp|exact Hord].
Qed.

Lemma nonpositive_limit_admits_nothing_witness :
  run xform_neg starved_run init = Some starved_final
  /\ dispatched (trace starved_final) = []
  /\ inputs (trace starved_final) = [chunk_a; chunk_b].
Proof.
  split; [reflexivity|].
  destruct (nonpositive_limit_admits_nothing xform_neg starved_run starved_final
              ltac:(simpl; lia) eq_refl) as (Hd & _ & Hi).
  split; [exact Hd|exact Hi].
Defined.

(** X2. With a limit of 1 the stage is serial.  The k-th invocation of the
    work function has number k and is on the k-th chunk of the input; the
    callbacks fire in the order of the invocations, so the k-th callback to
    fire is the callback of the work on the k-th input chunk; and at most
    one work is invoked and not completed. *)
Theorem serial_completion_order (cfg : config) (ins : list input) (s : state) :
  concurrency cfg = 1 ->
  run cfg ins init = Some s ->
  works (trace s)
  = combine (seq 0 (length (works (trace s))))
      (firstn (length (works (trace s))) (inputs (trace s)))
  /\ done_ids (trace s) = seq 0 (length (done_ids (trace s)))
  /\ (length (done_ids (trace s)) <= length (works (trace s))
      <= S (length (done_ids (trace s))))%nat
  /\ forall k, (k < length (done_ids (trace s)))%nat ->
       nth_error (done_ids (trace s)) k = Some k
       /\ exists chunk,
            nth_error (inputs (trace s)) k = Some chunk
            /\ nth_error (works (trace s)) k = Some (k, chunk).
Proof.
  intros Hc Hrun.
  assert (Hinv : serial_inv cfg s).
  { revert Hrun. apply (run_invariant cfg (serial_inv cfg)).
    - intros i s0 s1. apply serial_inv_step. exact Hc.
    - unfold serial_inv, pending_inv, balance_inv, outstanding. simpl.
      rewrite Hc. repeat split; (reflexivity || lia). }
  destruct Hinv as (((Hout & Hbal) & Hle) & Hs).
  pose proof (work_ids_seq cfg ins s Hrun) as Hseq.
  destruct (works_inv_run cfg ins s Hrun) as (Hw & Hlen).
  destruct (order_inv_run cfg ins s Hrun) as (Hord & _).
  assert (Hrest : (length (collect frame_id_of (stack s) ++ inflight s) <= 1)%nat).
  { unfold outstanding in Hout. rewrite Hc in Hle. rewrite length_app.
    pose proof (collect_length_count live frame_id_of (stack s) frame_id_of_none).
    lia. }
  assert (Hd : done_ids (trace s) = seq 0 (length (done_ids (trace s)))).
  { rewrite Hseq in Hs.
    assert (Hsplit : nextWork s
                     = (length (done_ids (trace s))
                        + length (collect frame_id_of (stack s) ++ inflight s))%nat).
    { rewrite <- (length_seq (nextWork s) 0), Hs, length_app. reflexivity. }
    rewrite Hsplit, seq_app in Hs.
    symmetry. apply (app_prefix_length _ _ _ _ Hs). apply length_seq. }
  assert (Hn : length (works (trace s)) = length (dispatched (trace s))).
  { rewrite works_count, dispatched_count. reflexivity. }
  assert (Hm : (length (done_ids (trace s)) <= length (works (trace s))
                <= S (length (done_ids (trace s))))%nat).
  { rewrite done_ids_count, works_count. rewrite Hc in Hle.
    unfold outstanding in Hout. lia. }
  split; [|split; [exact Hd|split; [exact Hm|]]].
  - rewrite Hn, Hord, firstn_length_app, Hlen. exact Hw.
  - intros k Hk. split.
    + rewrite Hd. apply (nth_error_seq_start 0). exact Hk.
    + assert (Hkn : (k < length (dispatched (trace s)))%nat) by lia.
      destruct (nth_error (dispatched (trace s)) k) as [chunk|] eqn:E.
      * exists chunk. split.
        -- rewrite Hord. apply nth_error_prefix. exact E.
        -- rewrite Hw, <- Hlen. exact (nth_error_combine_seq _ 0 k chunk E).
      * apply nth_error_None in E. lia.
Qed.

Lemma serial_completion_order_witness :
  run xform1 xform_run init = Some xform_run_final
  /\ works (trace xform_run_final) = [(0%nat, chunk_a); (1%nat, chunk_b)]
  /\ done_ids (trace xform_run_final) = [0; 1]%nat
  /\ nth_error (inputs (trace xform_run_final)) 1 = Some chunk_b.
Proof.
  split; [reflexivity|].
  destruct (serial_completion_order xform1 xform_run xform_run_final
              eq_refl eq_refl) as (Hw & Hd & _ & Hk).
  split; [exact Hw|]. split; [exact Hd|reflexivity].
Defined.

(** X3. In both variants, once an error is recorded and no call of the
    finalize hook or of the host's [end()] is under way, nothing the
    producer or the work does afterwards finalizes the stream: the hook is
    not invoked, the host's [end()] is not invoked, no second error
    notification is delivered and, unless the host was ending already, no
    completion is signalled. *)
Theorem error_blocks_shutdown (cfg : config) (ins : list input) (s s' : state) :
  errorEmitted s = true ->
  flushing s = O ->
  count shutdown_frame (stack s) = O ->
  run cfg ins s = Some s' ->
  errorEmitted s' = true
  /\ count is_flush (trace s') = count is_flush (trace s)
  /\ count is_end0 (trace s') = count is_end0 (trace s)
  /\ errors (trace s') = errors (trace s)
  /\ (hending s = false -> count is_finish (trace s') = count is_finish (trace s)).
Proof.
  intros He Hf Hs Hrun.
  destruct (blocked_run cfg ins s s' (conj He (conj Hf Hs)) Hrun)
    as ((He' & _) & Hfl & He0 & Herr & _ & Hfin).
  repeat split; assumption.
Qed.

Lemma error_blocks_shutdown_witness :
  run sink1 sink_end_after_error sink_write_after_error_final
    = Some sink_end_after_error_final
  /\ count is_flush (trace sink_end_after_error_final) = O
  /\ count is_finish (trace sink_end_after_error_final) = O.
Proof.
  split; [reflexivity|].
  destruct (error_blocks_shutdown sink1 sink_end_after_error
              sink_write_after_error_final sink_end_after_error_final
              eq_refl eq_refl eq_refl eq_refl) as (_ & Hf & _ & _ & Hfin).
  split; [exact Hf|exact (Hfin eq_refl)].
Defined.

(** X4. In the sink, for a single call of [end] by the producer: when the
    finalize hook reports a failure, the failure is delivered as the one
    error notification, and the host's [end()] is never invoked and
    completion never signalled, whatever happens afterwards. *)
Theorem failed_finalize_is_terminal
        (cfg : config) (ins ins' : list input) (s s' : state)
        (err : jsval) (k : list frame) :
  kind cfg = Writable ->
  run cfg ins init = Some s ->
  stack s = KFlushed err :: k ->
  truthy err = true ->
  (count is_endcall (trace s) <= 1)%nat ->
  run cfg (Tau :: ins') s = Some s' ->
  count is_end0 (trace s') = O
  /\ count is_finish (trace s') = O
  /\ length (errors (trace s')) = 1%nat
  /\ (errorEmitted s = false -> errors (trace s') = [err]).
Proof.
  intros Hk Hrun Hs Ht Hone Hrun'.
  pose proof (flush_inv_run cfg ins s Hrun) as Hflush.
  pose proof (token_inv_run cfg ins s Hrun) as Htok.
  pose proof (finalize_inv_run cfg ins s Hrun Hk) as Hfin.
  pose proof (host_inv_run cfg ins s Hrun) as (Hfe & He0 & Hcnt).
  pose proof (error_inv_run cfg ins s Hrun) as Herr.
  unfold flush_inv, token_inv, error_inv in *. rewrite Hs in *. simpl in *.
  assert (Hend0 : count is_end0 (trace s) = O) by lia.
  assert (Hhe : hending s = false).
  { destruct (hending s); [specialize (He0 eq_refl); lia|reflexivity]. }
  assert (Hhf : count is_finish (trace s) = O).
  { destruct (hfinished s); [specialize (Hfe eq_refl); congruence|exact Hcnt]. }
  simpl in Hrun'. unfold step in Hrun'. rewrite Hs in Hrun'. simpl in Hrun'.
  unfold flush_done in Hrun'. rewrite Ht in Hrun'.
  assert (Hb : blocked (with_stack k (fail err s))).
  { unfold blocked, fail. destruct s as [p ee oF oE oFin nL hb hw he hf infl nW fl stk tr]; simpl in *.
    destruct ee; simpl; (split; [reflexivity|]);
      (split; [lia|]); rewrite shutdown_frame_split; lia. }
  destruct (blocked_run cfg ins' _ s' Hb Hrun')
    as ((He' & _) & _ & Hn0 & Hne & _ & Hnf).
  assert (Htr : errors (trace (with_stack k (fail err s)))
                = if errorEmitted s then errors (trace s) else [err]).
  { unfold fail, errors in *. destruct s as [p ee oF oE oFin nL hb hw he hf infl nW fl stk tr]; simpl in *.
    destruct ee; simpl; [reflexivity|].
    rewrite collect_app. simpl.
    apply length_zero_iff_nil in Herr. rewrite Herr. reflexivity. }
  assert (Hc0 : count is_end0 (trace (with_stack k (fail err s))) = O
                /\ count is_finish (trace (with_stack k (fail err s))) = O
                /\ hending (with_stack k (fail err s)) = false).
  { unfold fail. destruct s as [p ee oF oE oFin nL hb hw he hf infl nW fl stk tr]; simpl in *.
    destruct ee; simpl; rewrite ?count_app; simpl; repeat split; lia || assumption. }
  destruct Hc0 as (Hc1 & Hc2 & Hc3).
  split; [lia|]. split; [rewrite (Hnf Hc3); exact Hc2|].
  rewrite Hne, Htr. split.
  - destruct (errorEmitted s); [exact Herr|reflexivity].
  - intros Hfalse. rewrite Hfalse. reflexivity.
Qed.

Lemma failed_finalize_is_terminal_witness :
  run sink_hook flush_fails init = Some flush_fails_final
  /\ run sink_hook [Tau; UserEnd VUndefined VUndefined VUndefined; Tau]
       flush_fails_final = Some flush_fails_end
  /\ count is_finish (trace flush_fails_end) = O
  /\ errors (trace flush_fails_end) = [boom].
Proof.
  split; [reflexivity|]. split; [reflexivity|].
  destruct (failed_finalize_is_terminal sink_hook flush_fails
              [UserEnd VUndefined VUndefined VUndefined; Tau]
              flush_fails_final flush_fails_end boom []
              eq_refl eq_refl eq_refl eq_refl ltac:(simpl; lia) eq_refl)
    as (_ & Hfin & _ & He).
  split; [exact Hfin|exact (He eq_refl)].
Defined.

(** X5. A transform that has recorded an error never begins its shutdown
    afterwards: from any state of any run in which the error flag is set,
    no continuation invokes the host's [end()], and no second error
    notification is delivered. *)
Theorem transform_error_never_ends
        (cfg : config) (ins ins' : list input) (s s' : state) :
  kind cfg = Transform ->
  run cfg ins init = Some s ->
  errorEmitted s = true ->
  run cfg ins' s = Some s' ->
  count is_end0 (trace s') = count is_end0 (trace s)
  /\ errors (trace s') = errors (trace s)
  /\ length (errors (trace s')) = 1%nat.
Proof.
  intros Hk Hrun He Hrun'.
  destruct (error_end0_inv_run cfg ins s Hrun) as (Hend & Herr).
  destruct (Hend Hk) as (Hf & Hfr & _). specialize (Herr Hk He).
  pose proof (error_inv_run cfg ins s Hrun) as Hone. unfold error_inv in Hone.
  rewrite He in Hone.
  assert (Hb : blocked s).
  { unfold blocked. split; [exact He|]. split; [exact Hf|].
    clear - Hfr Herr. induction (stack s) as [|f k IH]; simpl in *; [reflexivity|].
    destruct f; simpl in *; try discriminate; apply IH; assumption. }
  destruct (blocked_run cfg ins' s s' Hb Hrun') as (_ & _ & Hn0 & Hne & _).
  split; [exact Hn0|]. split; [exact Hne|]. rewrite Hne. exact Hone.
Qed.

Lemma transform_error_never_ends_witness :
  run xform1 xform_write_after_error init = Some xform_write_after_error_final
  /\ run xform1 xform_end_after_error xform_write_after_error_final
       = Some xform_end_after_error_final
  /\ count is_end0 (trace xform_end_after_error_final) = O
  /\ errors (trace xform_end_after_error_final) = [boom].
Proof.
  split; [reflexivity|]. split; [reflexivity|].
  destruct (transform_error_never_ends xform1 xform_write_after_error
              xform_end_after_error xform_write_after_error_final
              xform_end_after_error_final eq_refl eq_refl eq_refl eq_refl)
    as (H0 & He & _).
  split; [exact H0|exact He].
Defined.

(** ** Work conservation *)

(** X6. No chunk is left behind while a slot is free.  Whenever no handler
    is running and some accepted chunk has not been handed to the work
    function, the pool is full ([pending] equals the limit, with as many
    callbacks outstanding), and the next chunk of the input sits in a
    once-listener on ['free'] that retries it. *)
Theorem waiting_chunk_has_full_pool (cfg : config) (ins : list input) (s : state) :
  0 <= concurrency cfg ->
  run cfg ins init = Some s ->
  stack s = [] ->
  (length (dispatched (trace s)) < length (inputs (trace s)))%nat ->
  pending s = concurrency cfg
  /\ Z.of_nat (length (inflight s)) = concurrency cfg
  /\ exists i chunk enc,
       In (i, ARetryWrite chunk enc) (onFree s)
       /\ nth_error (inputs (trace s)) (length (dispatched (trace s))) = Some chunk.
Proof. exact (parked_at_rest cfg ins s). Qed.

Lemma waiting_chunk_has_full_pool_witness :
  run xform1 waiting_run init = Some waiting_final
  /\ pending waiting_final = 1
  /\ Z.of_nat (length (inflight waiting_final)) = 1.
Proof.
  split; [reflexivity|].
  destruct (waiting_chunk_has_full_pool xform1 waiting_run waiting_final
              ltac:(simpl; lia) eq_refl eq_refl ltac:(simpl; lia))
    as (Hp & Hi & _).
  split; [exact Hp|exact Hi].
Defined.

(** X7. When a work callback fires while a write waits on ['free'] (as the
    only listener), the same turn retries the write and dispatches the
    waiting chunk: the counter is back at its value, the listener is gone,
    and the work function is being invoked on that chunk.  This holds
    whether or not the completion reports an error. *)
Theorem completion_admits_waiting_chunk (cfg : config) (s : state)
    (id i : nat) (rest : list nat) (chunk enc err data : jsval) :
  stack s = [] ->
  take_id id (inflight s) = Some rest ->
  onFree s = [(i, ARetryWrite chunk enc)] ->
  pending s <= concurrency cfg ->
  exists s' k,
    run cfg [Complete id err data; Tau; Tau; Tau; Tau] s = Some s'
    /\ stack s' = KWork (nextWork s) chunk enc :: k
    /\ pending s' = pending s
    /\ onFree s' = []
    /\ inflight s' = rest
    /\ dispatched (trace s') = dispatched (trace s) ++ [chunk].
Proof.
  exact (completion_retries_write cfg s id i rest chunk enc err data).
Qed.

Lemma completion_admits_waiting_chunk_witness :
  exists s' k,
    run xform1 [Complete 0 VUndefined out_x; Tau; Tau; Tau; Tau] waiting_final = Some s'
    /\ stack s' = KWork 1 chunk_b VUndefined :: k
    /\ pending s' = 1.
Proof.
  destruct (completion_admits_waiting_chunk xform1 waiting_final 0 0 []
              chunk_b VUndefined VUndefined out_x
              eq_refl eq_refl eq_refl ltac:(simpl; lia))
    as (s' & k & Hrun & Hstk & Hp & _).
  exists s', k. split; [exact Hrun|]. split; [exact Hstk|exact Hp].
Defined.

(** ** A final chunk whose work completes at once *)

(** X8. [end(chunk)] writes the chunk and then waits for ['free'] to go on.
    When the work on that chunk fires its callback before it returns, the
    ['free'] it emits comes before the listener exists: the stage comes to
    rest with the retry of [end] still listening, the finalize hook and the
    host's [end()] not invoked, nothing in flight, and no event left that
    would resume it except another call by the producer. *)
Theorem end_chunk_sync_work_stalls (cfg : config) (s : state)
    (chunk enc cb err data : jsval) :
  1 <= concurrency cfg ->
  truthy chunk = true -> typeof_function chunk = false -> typeof_function enc = false ->
  stack s = [] -> pending s = 0 -> inflight s = [] -> flushing s = O ->
  onFree s = [] -> onEmpty s = [] ->
  hbuffer s = [] -> hwriting s = false -> hending s = false ->
  exists n s',
    run cfg (UserEnd chunk enc cb :: Tau :: Tau :: Tau :: WorkSync err data
               :: repeat Tau n) s = Some s'
    /\ stack s' = []
    /\ onFree s' = [(nextListener s, ARetryEnd cb VUndefined VUndefined)]
    /\ dispatched (trace s') = dispatched (trace s) ++ [chunk]
    /\ count is_done (trace s') = S (count is_done (trace s))
    /\ count is_flush (trace s') = count is_flush (trace s)
    /\ count is_end0 (trace s') = count is_end0 (trace s)
    /\ count is_finish (trace s') = count is_finish (trace s)
    /\ forall i s'', step cfg i s' = Some s'' ->
         (exists c e, i = UserWrite c e) \/ (exists c e k, i = UserEnd c e k).
Proof.
  intros Hc Hchunk Hfc Hfe Hstk Hp Hin Hfl Hfree Hempty Hbuf Hw He.
  destruct s as [p ee oF oE oFin nL hb hw he hf infl nW fl stk tr].
  simpl in Hstk, Hp, Hin, Hfl, Hfree, Hempty, Hbuf, Hw, He. subst.
  assert (E : (0 >=? concurrency cfg) = false).
  { rewrite Z.geb_leb. apply Z.leb_gt. lia. }
  assert (Hstuck : forall q e oFr oEm oFi n b w h f nw t i s'',
             step cfg i (State q e oFr oEm oFi n b w h f [] nw O [] t) = Some s'' ->
             (exists c e, i = UserWrite c e) \/ (exists c e k, i = UserEnd c e k)).
  { intros q e oFr oEm oFi n b w h f nw t i s'' H.
    destruct i; try discriminate H; [left|right]; eauto. }
  destruct cfg as [[|] hook c]; simpl in E.
  - destruct (truthy err) eqn:Eerr; [destruct ee|].
    all: exists 9%nat; eexists; split;
      [ cbn [repeat];
        next idtac; next ltac:(rewrite Z.eqb_refl, Hfc, Hfe; exec; rewrite Hchunk);
        next idtac; next ltac:(rewrite E); next idtac;
        next idtac; next idtac; next idtac;
        next ltac:(rewrite ?Eerr); next idtac; next idtac; next idtac;
        next idtac; next idtac; reflexivity
      | simpl; unfold dispatched; lists; rewrite ?app_nil_r;
        repeat split; try (reflexivity || lia); apply Hstuck ].
  - destruct (truthy err) eqn:Eerr; [destruct ee|destruct (truthy data) eqn:Edata].
    all: exists 5%nat; eexists; split;
      [ cbn [repeat];
        next idtac; next ltac:(rewrite Z.eqb_refl, Hfc, Hfe; exec; rewrite Hchunk);
        next idtac; next ltac:(rewrite E); next idtac;
        next ltac:(rewrite ?Eerr, ?Edata); next idtac; next idtac;
        next idtac; next idtac; reflexivity
      | simpl; unfold dispatched; lists; rewrite ?app_nil_r;
        repeat split; try (reflexivity || lia); apply Hstuck ].
Qed.

Lemma end_chunk_sync_work_stalls_witness :
  exists n s',
    run sink1 (UserEnd chunk_a VUndefined VUndefined :: Tau :: Tau :: Tau
                 :: WorkSync VUndefined VUndefined :: repeat Tau n) init = Some s'
    /\ stack s' = []
    /\ onFree s' = [(0%nat, ARetryEnd VUndefined VUndefined VUndefined)]
    /\ count is_flush (trace s') = O.
Proof.
  destruct (end_chunk_sync_work_stalls sink1 init chunk_a VUndefined VUndefined
              VUndefined VUndefined ltac:(simpl; lia)
              eq_refl eq_refl eq_refl eq_refl eq_refl eq_refl eq_refl
              eq_refl eq_refl eq_refl eq_refl eq_refl)
    as (n & s' & Hrun & Hstk & Hfree & _ & _ & Hflush & _).
  exists n, s'. split; [exact Hrun|]. split; [exact Hstk|].
  split; [exact Hfree|exact Hflush].
Defined.

(** X9. The same [end(chunk)] goes through when the work on the chunk
    fires its callback later: the retry of [end] is registered before the
    ['free'] of that completion, which runs it; the chunk has been
    dispatched and completed, the callback is registered for ['finish'], and
    the stage finishes (the sink after its finalize hook has reported no
    error). *)
Theorem end_chunk_async_work_finishes (cfg : config) (s : state)
    (chunk enc cb data : jsval) :
  1 <= concurrency cfg ->
  truthy chunk = true -> typeof_function chunk = false -> typeof_function enc = false ->
  typeof_function cb = true \/ truthy cb = false ->
  stack s = [] -> pending s = 0 -> inflight s = [] -> errorEmitted s = false ->
  onFree s = [] -> onEmpty s = [] ->
  hbuffer s = [] -> hwriting s = false -> hending s = false -> hfinished s = false ->
  exists s',
    run cfg
      (UserEnd chunk enc cb :: Tau :: Tau :: Tau :: WorkAsync ::
         match kind cfg with
         | Writable =>
             [Tau; Tau; Tau; Tau; Tau;
              Complete (nextWork s) VUndefined data; Tau; Tau; Tau; Tau;
              FlushSync VUndefined; Tau; Tau; Tau; Tau]
         | Transform =>
             [Tau; Tau;
              Complete (nextWork s) VUndefined data; Tau; Tau; Tau; Tau; Tau; Tau]
         end) s = Some s'
    /\ stack s' = [] /\ pending s' = 0 /\ inflight s' = [] /\ onFree s' = []
    /\ hfinished s' = true
    /\ dispatched (trace s') = dispatched (trace s) ++ [chunk]
    /\ count is_done (trace s') = S (count is_done (trace s))
    /\ count is_finish (trace s') = S (count is_finish (trace s))
    /\ onFinish s' = onFinish s ++ (if truthy cb then [cb] else []).
Proof.
  intros Hc Hchunk Hfc Hfe Hcb Hstk Hp Hin Herr Hfree Hempty Hbuf Hw He Hfin.
  destruct s as [p ee oF oE oFin nL hb hw he hf infl nW fl stk tr].
  simpl in Hstk, Hp, Hin, Herr, Hfree, Hempty, Hbuf, Hw, He, Hfin. subst.
  assert (E : (0 >=? concurrency cfg) = false).
  { rewrite Z.geb_leb. apply Z.leb_gt. lia. }
  assert (E0 : (0 + 1 - 1 =? 0) = true) by reflexivity.
  assert (Hcb' : (typeof_function cb = true /\ truthy cb = true)
                 \/ (typeof_function cb = false /\ truthy cb = false)).
  { destruct cb; simpl in *; destruct Hcb as [Hcb|Hcb];
      try discriminate Hcb; auto. }
  destruct Hcb' as [(Hcf & Hct)|(Hcf & Hct)];
    destruct (truthy data) eqn:Hdata;
    destruct cfg as [[|] [|f] c]; simpl in E; cbn [kind nextWork].
  all: eexists; split;
    [ repeat (next ltac:(repeat (progress
                           (cbn [app take_id truthy typeof_function];
                            rewrite ?Z.eqb_refl, ?E0, ?Nat.eqb_refl, ?E, ?Hfc, ?Hfe, ?Hcf,
                              ?Hchunk, ?Hct, ?Hdata;
                            exec))));
      reflexivity
    | cbn [stack pending inflight onFree hfinished trace onFinish];
      unfold dispatched; lists; rewrite ?Hct, ?app_nil_r;
      repeat split; try (reflexivity || lia) ].
Qed.

Lemma end_chunk_async_work_finishes_witness :
  exists s',
    run xform1
      [UserEnd chunk_a VUndefined VUndefined; Tau; Tau; Tau; WorkAsync; Tau; Tau;
       Complete 0 VUndefined out_x; Tau; Tau; Tau; Tau; Tau; Tau] init = Some s'
    /\ hfinished s' = true
    /\ dispatched (trace s') = [chunk_a].
Proof.
  destruct (end_chunk_async_work_finishes xform1 init chunk_a VUndefined VUndefined
              out_x ltac:(simpl; lia) eq_refl eq_refl eq_refl (or_intror eq_refl)
              eq_refl eq_refl eq_refl eq_refl eq_refl eq_refl eq_refl eq_refl
              eq_refl eq_refl)
    as (s' & Hrun & _ & _ & _ & _ & Hfin & Hd & _).
  exists s'. split; [exact Hrun|]. split; [exact Hfin|exact Hd].
Defined.

(** ** Ending an idle stage *)

(** X10. [end] on a stage at rest, with nothing buffered or in flight and no
    error recorded, and without a trailing chunk: a callback given in the
    place of [chunk], [enc] or [callback] is registered for ['finish'], the
    sink invokes the finalize hook and, when the hook reports no error, the
    host's [end()], the transform invokes the host's [end()] directly, and
    the stage finishes in the same turn. *)
Theorem end_when_idle_finishes (cfg : config) (s : state)
    (chunk enc cb chunk' enc' cb' : jsval) :
  end_args chunk enc cb = (chunk', enc', cb') -> truthy chunk' = false ->
  stack s = [] -> pending s = 0 -> errorEmitted s = false ->
  hbuffer s = [] -> hwriting s = false -> hending s = false -> hfinished s = false ->
  exists s',
    run cfg (UserEnd chunk enc cb :: Tau ::
               match kind cfg with
               | Writable => [FlushSync VUndefined; Tau; Tau]
               | Transform => [Tau]
               end) s = Some s'
    /\ stack s' = [] /\ hfinished s' = true
    /\ trace s' = trace s ++ OEndCall ::
                    match kind cfg with
                    | Writable => [OFlush; OEnd0; OFinish]
                    | Transform => [OEnd0; OFinish]
                    end
    /\ onFinish s' = onFinish s ++ (if truthy cb' then [cb'] else []).
Proof.
  intros Hargs Hchunk Hstk Hp He Hbuf Hw Hend Hfin.
  destruct s as [p ee oF oE oFin nL hb hw he hf infl nW fl stk tr].
  simpl in Hstk, Hp, He, Hbuf, Hw, Hend, Hfin. subst.
  unfold end_args in Hargs.
  destruct (typeof_function chunk) eqn:Hfc; destruct (typeof_function enc) eqn:Hfe;
    injection Hargs as <- <- <-;
    destruct (truthy cb) eqn:Hcb; destruct (truthy chunk) eqn:Hch;
    destruct (truthy enc) eqn:Hen;
    try discriminate Hchunk;
    destruct cfg as [[|] [|f] c]; cbn [kind].
  all: eexists; split;
    [ next idtac;
      next ltac:(rewrite ?Z.eqb_refl, ?Hfc, ?Hfe; exec; cbn [truthy];
                 rewrite ?Hch, ?Hen, ?Hcb);
      next ltac:(cbn [truthy]);
      first [ next ltac:(cbn [truthy]); next ltac:(cbn [truthy]); reflexivity
            | reflexivity ]
    | cbn [stack hfinished trace onFinish]; rewrite <- ?app_assoc, ?app_nil_r;
      repeat split; reflexivity ].
Qed.

Lemma end_when_idle_finishes_witness :
  exists s',
    run sink1 [UserEnd (VFun 7) VUndefined VUndefined; Tau;
               FlushSync VUndefined; Tau; Tau] init = Some s'
    /\ hfinished s' = true
    /\ onFinish s' = [VFun 7].
Proof.
  destruct (end_when_idle_finishes sink1 init (VFun 7) VUndefined VUndefined
              VNull VUndefined (VFun 7)
              eq_refl eq_refl eq_refl eq_refl eq_refl eq_refl eq_refl eq_refl eq_refl)
    as (s' & Hrun & _ & Hfin & _ & Hon).
  exists s'. split; [exact Hrun|]. split; [exact Hfin|exact Hon].
Defined.

(** ** A hook that is [null] *)

(** X11. [typeof null] is ['object']: a sink constructed with [null] in the
    place of the finalize hook takes that [null] for its options, so the
    options given as third argument are dropped, whatever they are; the
    stage has the default hook and runs with a limit of 1. *)
Theorem null_hook_discards_options (options : jsval) (cfg : config)
    (ins : list input) (s : state) :
  stage_of (writable VNull options) = Some cfg ->
  run cfg ins init = Some s ->
  c_options (writable VNull options) = VObj []
  /\ flush cfg = HookDefault /\ concurrency cfg = 1
  /\ 0 <= pending s <= 1.
Proof.
  intros Hcfg Hrun. cbv in Hcfg. injection Hcfg as <-.
  assert (Hc : 0 <= concurrency (Config Writable HookDefault 1)) by (simpl; lia).
  destruct (pending_inv_run _ ins s Hc Hrun) as ((Hout & _) & Hle).
  simpl in Hle. repeat split; try reflexivity; lia.
Qed.

Lemma null_hook_discards_options_witness :
  stage_of (writable VNull (VObj [("concurrency"%string, VNum 5)])) = Some sink1
  /\ run sink1 sink_last_fails init = Some sink_last_fails_final
  /\ 0 <= pending sink_last_fails_final <= 1.
Proof.
  split; [reflexivity|]. split; [reflexivity|].
  destruct (null_hook_discards_options (VObj [("concurrency"%string, VNum 5)])
              sink1 sink_last_fails sink_last_fails_final eq_refl eq_refl)
    as (_ & _ & _ & Hp).
  exact Hp.
Defined.
